(** * Chunk-and-embed ingestion pipeline (embeddings/generator.py)

    A shallow embedding of [SemanticChunker] and [EmbeddingGenerator] of
    tools/TeachingAssistant.ContentPipeline/embeddings/generator.py, and the
    properties of chunking and of the conflict-aware upsert.

    Python values are modelled as follows.
    - [str] is a list of Unicode code points ([N]); [str.split()],
      [str.strip()], [' '.join] and [re.split(r'\n(?=##\s)', _)] are
      written out over that list, all three with CPython's one whitespace
      predicate.
    - [int] is [Z]; list slices [l[i:j]] follow Python's rules for
      negative and out-of-range bounds.
    - the [while] loop of [_chunk_section] takes a fuel that bounds the
      number of times its body runs; [None] means the bound was hit.
    - the [content_embeddings] table is a finite map keyed by
      [(content_unit_id, chunk_index)]; [embed_chunks_to_db] runs in a
      state-and-exception monad over the table, the connection and stdout. *)

From stdpp Require Import gmap list fin_maps.
From Stdlib Require Import ZArith Lia.
From Stdlib Require Ascii String.
Import String.StringSyntax.
Bind Scope string_scope with String.string.

Local Open Scope Z_scope.

(** ** Python strings *)

Module PyStr.

Definition char := N.
Definition str := list char.

Definition LF : char := 10%N.
Definition SPACE : char := 32%N.
Definition HASH : char := 35%N.
Definition SLASH : char := 47%N.

(** [Py_UNICODE_ISSPACE]: the predicate behind [str.split()],
    [str.strip()] and the pattern class [\s] on [str] patterns. *)
Definition isspace (c : char) : bool :=
  ((9 <=? c) && (c <=? 13) || (28 <=? c) && (c <=? 32)
   || (c =? 133) || (c =? 160) || (c =? 5760)
   || (8192 <=? c) && (c <=? 8202)
   || (c =? 8232) || (c =? 8233) || (c =? 8239) || (c =? 8287)
   || (c =? 12288))%N.

(** [s.lstrip()] *)
Fixpoint lstrip (s : str) : str :=
  match s with
  | [] => []
  | c :: s' => if isspace c then lstrip s' else s
  end.

(** [s.rstrip()] *)
Fixpoint rstrip (s : str) : str :=
  match s with
  | [] => []
  | c :: s' =>
      match rstrip s' with
      | [] => if isspace c then [] else [c]
      | r => c :: r
      end
  end.

(** [s.strip()] *)
Definition strip (s : str) : str := rstrip (lstrip s).

(** Does [s] start with a character that is not whitespace? *)
Definition word_start (s : str) : bool :=
  match s with
  | [] => false
  | c :: _ => negb (isspace c)
  end.

(** [s.split()]: the maximal runs of non-whitespace characters. *)
Fixpoint split (s : str) : list str :=
  match s with
  | [] => []
  | c :: s' =>
      if isspace c then split s'
      else if word_start s' then
        match split s' with
        | w :: ws => (c :: w) :: ws
        | [] => [[c]]
        end
      else [c] :: split s'
  end.

(** [sep.join(ws)] *)
Fixpoint join (sep : str) (ws : list str) : str :=
  match ws with
  | [] => []
  | [w] => w
  | w :: ws' => w ++ sep ++ join sep ws'
  end.

(** The lookahead [(?=##\s)] at the position after a newline. *)
Definition at_header (s : str) : bool :=
  match s with
  | c1 :: c2 :: c3 :: _ => (c1 =? HASH)%N && (c2 =? HASH)%N && isspace c3
  | _ => false
  end.

(** [re.split(r'\n(?=##\s)', s)]: cut at every newline that is followed
    by "##" and a whitespace character; the newline itself is dropped. *)
Fixpoint re_split_headers (s : str) : list str :=
  match s with
  | [] => [[]]
  | c :: s' =>
      if (c =? LF)%N && at_header s' then [] :: re_split_headers s'
      else match re_split_headers s' with
           | p :: ps => (c :: p) :: ps
           | [] => [[c]]
           end
  end.

(** Does the pattern [\n(?=##\s)] match anywhere in [s]? *)
Fixpoint has_header_break (s : str) : bool :=
  match s with
  | [] => false
  | c :: s' => (c =? LF)%N && at_header s' || has_header_break s'
  end.

(** A word as [split] yields them: not empty, no whitespace inside. *)
Definition is_word (w : str) : Prop :=
  w <> [] /\ Forall (fun c => isspace c = false) w.

(** Code points of an ASCII literal, for the examples. *)
Fixpoint of_string (s : String.string) : str :=
  match s with
  | String.EmptyString => []
  | String.String a s' => Ascii.N_of_ascii a :: of_string s'
  end.

End PyStr.
Import PyStr.

(** ** Python list slices *)

(** One bound of [l[i:j]] for a list of length [n]: a negative bound
    counts from the end, and every bound is clamped into [0..n]. *)
Definition slice_bound (n k : Z) : Z :=
  if k <? 0 then Z.max (k + n) 0 else Z.min k n.

(** [l[i:j]] *)
Definition py_slice {A} (l : list A) (i j : Z) : list A :=
  let n := Z.of_nat (length l) in
  let lo := slice_bound n i in
  let hi := slice_bound n j in
  take (Z.to_nat (hi - lo)) (drop (Z.to_nat lo) l).

(** [len(l)] *)
Definition len {A} (l : list A) : Z := Z.of_nat (length l).

(** ** The chunker *)

(** The keys of a content unit that the pipeline reads.  ['topic_path'] is
    read with [.get('topic_path', [])], hence optional; the others are read
    with [content_unit[...]] and are the required fields of the input. *)
Record ContentUnit := {
  unit_id : str;
  subject : str;
  grade_band : str;
  topic_path : option (list str);
  title : str;
  full_text : str
}.

(** The [metadata] dict of a chunk: its four keys. *)
Record Metadata := {
  md_subject : str;
  md_grade_band : str;
  md_topic_path : str;
  md_title : str
}.

Record ContentChunk := {
  content_unit_id : str;
  chunk_index : Z;
  text : str;
  metadata : Metadata
}.

Record SemanticChunker := {
  max_chunk : Z;
  overlap : Z;
  min_chunk : Z
}.

(** [SemanticChunker.__init__]: the three parameters are stored as given. *)
Definition SemanticChunker_init
    (max_chunk_tokens overlap_tokens min_chunk_tokens : Z) : SemanticChunker :=
  {| max_chunk := max_chunk_tokens;
     overlap := overlap_tokens;
     min_chunk := min_chunk_tokens |}.

(** [SemanticChunker()] *)
Definition default_chunker : SemanticChunker := SemanticChunker_init 512 64 100.

(** The [metadata={...}] literal built for every chunk. *)
Definition chunk_metadata (content_unit : ContentUnit) : Metadata :=
  {| md_subject := subject content_unit;
     md_grade_band := grade_band content_unit;
     md_topic_path := join [SLASH] (default [] (topic_path content_unit));
     md_title := title content_unit |}.

Definition mk_chunk (content_unit : ContentUnit) (idx : Z) (t : str)
    : ContentChunk :=
  {| content_unit_id := unit_id content_unit;
     chunk_index := idx;
     text := t;
     metadata := chunk_metadata content_unit |}.

(** [_split_by_headers]: [[s.strip() for s in sections if s.strip()]] *)
Definition _split_by_headers (t : str) : list str :=
  List.filter (fun s => negb (bool_decide (s = [])))
              (map strip (re_split_headers t)).

Section Chunking.

Variable self : SemanticChunker.
Variable content_unit : ContentUnit.

(** The variables of the windowing loop of [_chunk_section]. *)
Record Window := {
  w_i : Z;
  w_chunk_idx : Z;
  w_chunks : list ContentChunk
}.

(** [words[i:end]] for [end = min(i + self.max_chunk, len(words))] *)
Definition window_words (words : list str) (i : Z) : list str :=
  py_slice words i (Z.min (i + max_chunk self) (len words)).

(** One run of the body of [while i < len(words)]. *)
Definition loop_body (words : list str) (st : Window) : Window :=
  let chunk_words := window_words words (w_i st) in
  let step := max_chunk self - overlap self in
  if min_chunk self <=? len chunk_words then
    {| w_i := w_i st + step;
       w_chunk_idx := w_chunk_idx st + 1;
       w_chunks := w_chunks st ++
         [mk_chunk content_unit (w_chunk_idx st) (join [SPACE] chunk_words)] |}
  else
    {| w_i := w_i st + step;
       w_chunk_idx := w_chunk_idx st;
       w_chunks := w_chunks st |}.

(** [while i < len(words): ...], with at most [fuel] runs of the body. *)
Fixpoint while_loop (fuel : nat) (words : list str) (st : Window)
    : option (list ContentChunk) :=
  match fuel with
  | O => if w_i st <? len words then None else Some (w_chunks st)
  | S fuel' =>
      if w_i st <? len words
      then while_loop fuel' words (loop_body words st)
      else Some (w_chunks st)
  end.

(** The chunks of [m] consecutive windows from position [i] on, numbered
    from [idx]: what [m] runs of the body append when every window is
    long enough. *)
Fixpoint windows_from (words : list str) (m : nat) (i idx : Z)
    : list ContentChunk :=
  match m with
  | O => []
  | S m' =>
      mk_chunk content_unit idx (join [SPACE] (window_words words i))
        :: windows_from words m' (i + (max_chunk self - overlap self))
                        (idx + 1)
  end.

Definition _chunk_section (fuel : nat) (section : str) (start_idx : Z)
    : option (list ContentChunk) :=
  let words := split section in
  if len words <=? max_chunk self then
    Some [mk_chunk content_unit start_idx section]
  else
    while_loop fuel words
      {| w_i := 0; w_chunk_idx := start_idx; w_chunks := [] |}.

(** [for section in sections: ...] of [chunk_content] *)
Fixpoint chunk_sections (fuel : nat) (sections : list str)
    (chunk_idx : Z) (chunks : list ContentChunk)
    : option (list ContentChunk) :=
  match sections with
  | [] => Some chunks
  | section :: rest =>
      match _chunk_section fuel section chunk_idx with
      | None => None
      | Some section_chunks =>
          chunk_sections fuel rest (chunk_idx + len section_chunks)
                         (chunks ++ section_chunks)
      end
  end.

Definition chunk_content (fuel : nat) : option (list ContentChunk) :=
  chunk_sections fuel (_split_by_headers (full_text content_unit)) 0 [].

End Chunking.

(** A valid configuration: a non-negative overlap strictly below the
    window size, so that the step of the window is at least 1. *)
Definition valid_config (self : SemanticChunker) : Prop :=
  0 <= overlap self < max_chunk self.

(** [start, start+1, ..., start+n-1] *)
Fixpoint zseq (start : Z) (n : nat) : list Z :=
  match n with
  | O => []
  | S n' => start :: zseq (start + 1) n'
  end.

(** Number of words of a chunk's text. *)
Definition word_count (c : ContentChunk) : Z := len (split (text c)).

(** The last [n] and the first [n] elements of a list. *)
Definition last_n {A} (n : Z) (l : list A) : list A :=
  drop (length l - Z.to_nat n) l.
Definition first_n {A} (n : Z) (l : list A) : list A := take (Z.to_nat n) l.

(** A fuel that suffices for every section of a text. *)
Definition sections_fuel (t : str) : nat :=
  foldr (fun s n => Nat.max (length (split s)) n) O (_split_by_headers t).

(** Test data: two-letter words (distinct below 676), joined by single
    spaces. *)
Definition test_word (k : nat) : str :=
  [N.of_nat (97 + k `mod` 26); N.of_nat (97 + (k / 26) `mod` 26)]%nat.
Definition test_words (n : nat) : list str := map test_word (seq 0 n).
Definition test_text (n : nat) : str := join [SPACE] (test_words n).
Definition test_unit (t : str) : ContentUnit :=
  {| unit_id := of_string "unit-1";
     subject := of_string "biology";
     grade_band := of_string "G6_8";
     topic_path := Some [of_string "cells"; of_string "mitosis"];
     title := of_string "Mitosis";
     full_text := t |}.

(** ** Python's [range] *)

(** [range(start, stop, step)] as a list; [None] is the [ValueError] that
    a zero step raises. *)
Definition py_range (start stop step : Z) : option (list Z) :=
  if step =? 0 then None
  else
    let count :=
      if 0 <? step then (stop - start + step - 1) `div` step
      else (start - stop - step - 1) `div` (- step) in
    Some (map (fun k : nat => start + Z.of_nat k * step)
              (seq 0 (Z.to_nat count))).

(** ** The embedding generator and the vector store *)

(** What a run can raise: a failed request of [embed_texts]
    ([raise_for_status], a timeout), a statement that the database
    refuses, and [range()] with a zero step. *)
Inductive Exn :=
| HTTPError (texts : list str)
| PostgresError (content_unit_id : str) (chunk_index : Z)
| ValueError.

Section Generator.

(** The numbers of an embedding vector; the code never inspects them. *)
Variable num : Type.

(** The embedding server behind [POST /embed]: the decoded JSON body of
    a successful response, or [None] when the request fails. *)
Variable embed_server : list str -> option (list (list num)).

(** Whether the database executes the INSERT statement with the values
    of this chunk and vector (type casts, column constraints). *)
Variable db_accepts : ContentChunk -> list num -> bool.

(** A row of [content_embeddings] under its key
    [(content_unit_id, chunk_index)]. *)
Record Row := {
  chunk_text : str;
  embedding : list num;
  row_metadata : Metadata
}.

(** The table, the state of the connection, and the batches reported on
    stdout as (number, total). *)
Record World := {
  table : gmap (str * Z) Row;
  conn_open : bool;
  stdout : list (Z * Z)
}.

(** State and exceptions: a computation changes the world and either
    returns or raises; what was written before a raise stays written
    (each statement commits on its own). *)
Definition M (A : Type) : Type := World -> (Exn + A) * World.

Definition ret {A} (a : A) : M A := fun w => (inr a, w).
Definition raise {A} (e : Exn) : M A := fun w => (inl e, w).
Definition bind {A B} (m : M A) (k : A -> M B) : M B :=
  fun w =>
    match m w with
    | (inr a, w') => k a w'
    | (inl e, w') => (inl e, w')
    end.

(** [try: body finally: cleanup] *)
Definition try_finally {A} (body : M A) (cleanup : M unit) : M A :=
  fun w =>
    let '(r, w') := body w in
    match cleanup w' with
    | (inr _, w'') => (r, w'')
    | (inl e, w'') => (inl e, w'')
    end.

Notation "'let*' x := m 'in' k" := (bind m (fun x => k))
  (at level 10, x name, m at level 100, k at level 200).
Notation "m >> k" := (bind m (fun _ => k))
  (at level 62, right associativity).

(** [for x in l: f(x)] *)
Fixpoint for_each {A} (f : A -> M unit) (l : list A) : M unit :=
  match l with
  | [] => ret tt
  | x :: l' => f x >> for_each f l'
  end.

Definition key (chunk : ContentChunk) : str * Z :=
  (content_unit_id chunk, chunk_index chunk).

(** INSERT ... ON CONFLICT (content_unit_id, chunk_index)
    DO UPDATE SET embedding = EXCLUDED.embedding *)
Definition upsert_row (t : gmap (str * Z) Row)
    (chunk : ContentChunk) (e : list num) : gmap (str * Z) Row :=
  match t !! key chunk with
  | Some r =>
      <[key chunk := {| chunk_text := chunk_text r;
                        embedding := e;
                        row_metadata := row_metadata r |}]> t
  | None =>
      <[key chunk := {| chunk_text := text chunk;
                        embedding := e;
                        row_metadata := metadata chunk |}]> t
  end.

Definition with_table (t : gmap (str * Z) Row) (w : World) : World :=
  {| table := t; conn_open := conn_open w; stdout := stdout w |}.

(** [await conn.execute(<the statement>, ...)] *)
Definition execute (chunk : ContentChunk) (e : list num) : M unit :=
  fun w =>
    if db_accepts chunk e then
      (inr tt, with_table (upsert_row (table w) chunk e) w)
    else (inl (PostgresError (content_unit_id chunk) (chunk_index chunk)), w).

(** [await asyncpg.connect(...)], taken to succeed, and
    [await conn.close()] *)
Definition connect : M unit :=
  fun w => (inr tt, {| table := table w; conn_open := true;
                       stdout := stdout w |}).
Definition close : M unit :=
  fun w => (inr tt, {| table := table w; conn_open := false;
                       stdout := stdout w |}).

(** [print(f"Embedded batch {a}/{b}")] *)
Definition print (a b : Z) : M unit :=
  fun w => (inr tt, {| table := table w; conn_open := conn_open w;
                       stdout := stdout w ++ [(a, b)] |}).

(** [embed_texts] *)
Definition embed_texts (texts : list str) : M (list (list num)) :=
  match embed_server texts with
  | Some vectors => ret vectors
  | None => raise (HTTPError texts)
  end.

(** [for chunk, embedding in zip(batch, embeddings): await conn.execute(...)] *)
Definition upsert (pairs : list (ContentChunk * list num)) : M unit :=
  for_each (fun p => execute p.1 p.2) pairs.

(** The body of [for i in range(0, len(chunks), batch_size)]. *)
Definition embed_batch (chunks : list ContentChunk) (batch_size : Z)
    (i : Z) : M unit :=
  let batch := py_slice chunks i (i + batch_size) in
  let texts := map text batch in
  let* embeddings := embed_texts texts in
  upsert (zip batch embeddings) >>
  print (i `div` batch_size + 1)
        ((len chunks + batch_size - 1) `div` batch_size).

Definition embed_chunks_to_db (chunks : list ContentChunk)
    (batch_size : Z) : M unit :=
  connect >>
  try_finally
    (match py_range 0 (len chunks) batch_size with
     | None => raise ValueError
     | Some starts => for_each (embed_batch chunks batch_size) starts
     end)
    close.

(** *** The loop of [upsert] read off as pure functions *)

(** The pairs up to the first one the database refuses. *)
Fixpoint accepted_prefix (pairs : list (ContentChunk * list num))
    : list (ContentChunk * list num) :=
  match pairs with
  | [] => []
  | p :: ps => if db_accepts p.1 p.2 then p :: accepted_prefix ps else []
  end.

(** How the loop ends: normally, or with the error of the first pair
    the database refuses. *)
Fixpoint upsert_outcome (pairs : list (ContentChunk * list num))
    : Exn + unit :=
  match pairs with
  | [] => inr tt
  | p :: ps =>
      if db_accepts p.1 p.2 then upsert_outcome ps
      else inl (PostgresError (content_unit_id p.1) (chunk_index p.1))
  end.

(** The statement run for every pair of a list, in order. *)
Definition upsert_all (pairs : list (ContentChunk * list num))
    (t : gmap (str * Z) Row) : gmap (str * Z) Row :=
  foldl (fun t p => upsert_row t p.1 p.2) t pairs.

Definition set_embedding (e : list num) (r : Row) : Row :=
  {| chunk_text := chunk_text r; embedding := e;
     row_metadata := row_metadata r |}.

(** What one statement does to the row under key [k]. *)
Definition cell_step (k : str * Z) (cell : option Row)
    (p : ContentChunk * list num) : option Row :=
  if decide (key p.1 = k) then
    match cell with
    | Some r => Some (set_embedding p.2 r)
    | None => Some {| chunk_text := text p.1; embedding := p.2;
                      row_metadata := metadata p.1 |}
    end
  else cell.

(** The vector under key [k] after a list of statements, from [e0]. *)
Definition emb_after (k : str * Z) (pairs : list (ContentChunk * list num))
    (e0 : list num) : list num :=
  foldl (fun e p => if decide (key p.1 = k) then p.2 else e) e0 pairs.

(** The pairs that a run over the batch starts [starts] gets written: all
    pairs of the batches before the first failing one, and of that batch
    the pairs before the refused statement. *)
Fixpoint executed_pairs (chunks : list ContentChunk) (batch_size : Z)
    (starts : list Z) : list (ContentChunk * list num) :=
  match starts with
  | [] => []
  | i :: rest =>
      let batch := py_slice chunks i (i + batch_size) in
      match embed_server (map text batch) with
      | None => []
      | Some embeddings =>
          let pairs := zip batch embeddings in
          match upsert_outcome pairs with
          | inr _ => pairs ++ executed_pairs chunks batch_size rest
          | inl _ => accepted_prefix pairs
          end
      end
  end.

End Generator.

Arguments chunk_text {num} _.
Arguments embedding {num} _.
Arguments row_metadata {num} _.
Arguments table {num} _.
Arguments conn_open {num} _.
Arguments stdout {num} _.
Arguments ret {num A} _ _.
Arguments raise {num A} _ _.
Arguments bind {num A B} _ _ _.
Arguments try_finally {num A} _ _ _.
Arguments for_each {num A} _ _ _.
Arguments upsert_row {num} _ _ _.
Arguments with_table {num} _ _.
Arguments accepted_prefix {num} _ _.
Arguments upsert_outcome {num} _ _.
Arguments upsert_all {num} _ _.
Arguments set_embedding {num} _ _.
Arguments cell_step {num} _ _ _.
Arguments emb_after {num} _ _ _.
Arguments executed_pairs {num} _ _ _ _ _.
Arguments execute {num} _ _ _ _.
Arguments connect {num} _.
Arguments close {num} _.
Arguments print {num} _ _ _.
Arguments embed_texts {num} _ _ _.
Arguments upsert {num} _ _ _.
Arguments embed_batch {num} _ _ _ _ _ _.
Arguments embed_chunks_to_db {num} _ _ _ _ _.

(** Test data for the store: integer vectors, a database that accepts
    every statement, and a world before any run. *)
Definition accept_all : ContentChunk -> list Z -> bool := fun _ _ => true.
Definition empty_world : World Z :=
  {| table := ∅; conn_open := false; stdout := [] |}.
Definition test_chunk (idx : Z) (t ttl : String.string) : ContentChunk :=
  {| content_unit_id := of_string "unit-1";
     chunk_index := idx;
     text := of_string t;
     metadata := {| md_subject := of_string "biology";
                    md_grade_band := of_string "G6_8";
                    md_topic_path := of_string "cells/mitosis";
                    md_title := of_string ttl |} |}.

(** A server that answers every text with an empty vector, and one whose
    request fails whenever the text [bad] is in the batch. *)
Definition empty_vector_server (texts : list str) : option (list (list Z)) :=
  Some (map (fun _ => []) texts).
Definition flaky_server (bad : str) (texts : list str)
    : option (list (list Z)) :=
  if bool_decide (bad ∈ texts) then None
  else Some (map (fun t => [len t]) texts).

(** A database whose vector column refuses a vector without dimensions
    and accepts every other statement. *)
Definition refuse_empty (chunk : ContentChunk) (e : list Z) : bool :=
  match e with
  | [] => false
  | _ :: _ => true
  end.

(** ** The batches of a run, and the script's main block *)

(** Does a section open with the level-2 marker: "##", then the end of
    the section or a whitespace character? *)
Definition opens_with_header (s : str) : bool :=
  match s with
  | c1 :: c2 :: rest => (c1 =? HASH)%N && (c2 =? HASH)%N && negb (word_start rest)
  | _ => false
  end.

(** [chunks[i:i + batch_size]] for every [i] of the range. *)
Definition batches (chunks : list ContentChunk) (batch_size : Z)
    (starts : list Z) : list (list ContentChunk) :=
  map (fun i => py_slice chunks i (i + batch_size)) starts.

(** The lines that the batch loop prints when batches [1..k] of [k] went
    through. *)
Definition progress_lines (k : nat) : list (Z * Z) :=
  map (fun j : nat => (Z.of_nat j + 1, Z.of_nat k)) (seq 0 k).

(** [for unit in content_units: all_chunks.extend(chunker.chunk_content(unit))]
    of the main block. *)
Fixpoint chunk_units (chunker : SemanticChunker) (fuel : nat)
    (content_units : list ContentUnit) (all_chunks : list ContentChunk)
    : option (list ContentChunk) :=
  match content_units with
  | [] => Some all_chunks
  | unit :: rest =>
      match chunk_content chunker unit fuel with
      | None => None
      | Some chunks => chunk_units chunker fuel rest (all_chunks ++ chunks)
      end
  end.

(** The main block after the input file is read: chunk every unit with
    [SemanticChunker()], print the two counts, and run
    [embed_chunks_to_db(all_chunks, db_connection)] with its default
    [batch_size=32].  The result is the pair of printed counts and the
    outcome of the run; [None] when chunking does not return. *)
Definition main {num : Type}
    (embed_server : list str -> option (list (list num)))
    (db_accepts : ContentChunk -> list num -> bool)
    (fuel : nat) (content_units : list ContentUnit) (w : World num)
    : option ((Z * Z) * ((Exn + unit) * World num)) :=
  match chunk_units default_chunker fuel content_units [] with
  | None => None
  | Some all_chunks =>
      Some ((len all_chunks, len content_units),
            embed_chunks_to_db embed_server db_accepts all_chunks 32 w)
  end.

(** A server that answers every text with the vector [f text]. *)
Definition pointwise_server {num : Type} (f : str -> list num)
    (texts : list str) : option (list (list num)) :=
  Some (map f texts).

(** A database that refuses exactly the statements for chunk index [bad]. *)
Definition refuse_index (bad : Z) (chunk : ContentChunk) (e : list Z) : bool :=
  negb (chunk_index chunk =? bad).

(** [x] is a run of consecutive elements of [l]. *)
Definition is_run_of {A} (x l : list A) : Prop :=
  exists before after, l = before ++ x ++ after.

(** A fuel that suffices for every section of every unit of a list. *)
Definition units_fuel (content_units : list ContentUnit) : nat :=
  foldr (fun u n => Nat.max (sections_fuel (full_text u)) n) O content_units.

(** ** Sanity checks of the model *)

Example split_ex :
  split (of_string "  ab  c
d ") = [of_string "ab"; of_string "c"; of_string "d"].
Proof. reflexivity. Qed.

Example strip_ex : strip (of_string "  a b
 ") = of_string "a b".
Proof. reflexivity. Qed.

Example re_split_ex :
  re_split_headers (of_string "x
## a
### b
## c") = [of_string "x"; of_string "## a
### b"; of_string "## c"].
Proof. reflexivity. Qed.

Example py_slice_ex :
  py_slice [1; 2; 3; 4; 5] 1 (-1) = [2; 3; 4] /\
  py_slice [1; 2; 3; 4; 5] 3 9 = [4; 5] /\
  py_slice [1; 2; 3; 4; 5] 4 2 = [].
Proof. repeat split. Qed.

Example chunk_700 :
  option_map (map (fun c => (chunk_index c, word_count c)))
    (chunk_content default_chunker (test_unit (test_text 700)) 2)
  = Some [(0, 512); (1, 252)].
Proof. vm_compute. reflexivity. Qed.

Example chunk_80 :
  option_map (map (fun c => (chunk_index c, word_count c)))
    (chunk_content default_chunker (test_unit (test_text 80)) 0)
  = Some [(0, 80)].
Proof. vm_compute. reflexivity. Qed.

Example py_range_ex :
  py_range 0 70 32 = Some [0; 32; 64] /\ py_range 0 64 32 = Some [0; 32] /\
  py_range 0 5 (-1) = Some [] /\ py_range 0 5 0 = None.
Proof. repeat split. Qed.

(** ** Facts about [split], [strip], [join] and the header pattern *)

Section StringFacts.

Lemma split_is_word (s : str) : Forall is_word (split s).
Proof.
  induction s as [|c s IH]; simpl; [constructor|].
  destruct (isspace c) eqn:Hc; [exact IH|].
  assert (Hone : is_word [c]).
  { split; [discriminate | by constructor]. }
  destruct (word_start s).
  - destruct (split s) as [|w ws]; [by constructor|].
    inversion IH as [|? ? [Hne Hw] Hws]; subst.
    constructor; [|exact Hws].
    split; [discriminate | by constructor].
  - by constructor.
Qed.

Lemma split_word_app (w rest : str) :
  is_word w -> word_start rest = false ->
  split (w ++ rest) = w :: split rest.
Proof.
  intros [Hne Hw] Hrest. induction w as [|c w IH]; [done|].
  inversion Hw as [|? ? Hc Hw']; subst. simpl. rewrite Hc.
  destruct w as [|d w].
  - simpl. by rewrite Hrest.
  - assert (Hd : isspace d = false) by (by inversion Hw').
    change (word_start ((d :: w) ++ rest)) with (negb (isspace d)).
    rewrite Hd. simpl negb. cbv iota.
    rewrite IH; [done | discriminate | done].
Qed.

Lemma split_single (w : str) : is_word w -> split w = [w].
Proof.
  intros Hw. rewrite <- (app_nil_r w) at 1.
  by rewrite split_word_app.
Qed.

(** [' '.join(ws).split() == ws] for words [ws]. *)
Lemma split_join (ws : list str) :
  Forall is_word ws -> split (join [SPACE] ws) = ws.
Proof.
  induction 1 as [|w ws Hw Hws IH]; [done|].
  destruct ws as [|w2 ws].
  - simpl. by apply split_single.
  - change (join [SPACE] (w :: w2 :: ws))
      with (w ++ SPACE :: join [SPACE] (w2 :: ws)).
    rewrite split_word_app; [|done|done].
    change (split (SPACE :: join [SPACE] (w2 :: ws)))
      with (split (join [SPACE] (w2 :: ws))).
    by rewrite IH.
Qed.

Lemma split_lstrip (s : str) : split (lstrip s) = split s.
Proof.
  induction s as [|c s IH]; [done|]. simpl.
  destruct (isspace c) eqn:Hc; [exact IH|]. simpl. by rewrite Hc.
Qed.

Lemma word_start_rstrip (s : str) : word_start (rstrip s) = word_start s.
Proof.
  destruct s as [|c s]; [done|]. simpl.
  destruct (rstrip s); [|done].
  destruct (isspace c) eqn:Hc; simpl; by rewrite ?Hc.
Qed.

Lemma split_rstrip (s : str) : split (rstrip s) = split s.
Proof.
  induction s as [|c s IH]; [done|]. simpl.
  pose proof (word_start_rstrip s) as Hws.
  destruct (rstrip s) as [|d r] eqn:Hr.
  - simpl in Hws, IH. rewrite <- Hws, <- IH.
    destruct (isspace c) eqn:Hc; simpl; by rewrite ?Hc.
  - change (split (c :: d :: r)) with
      (if isspace c then split (d :: r)
       else if word_start (d :: r) then
              match split (d :: r) with
              | w :: ws => (c :: w) :: ws
              | [] => [[c]]
              end
            else [c] :: split (d :: r)).
    by rewrite Hws, IH.
Qed.

Lemma split_strip (s : str) : split (strip s) = split s.
Proof. unfold strip. by rewrite split_rstrip, split_lstrip. Qed.

Lemma re_split_no_header (s : str) :
  has_header_break s = false -> re_split_headers s = [s].
Proof.
  induction s as [|c s IH]; [done|]. simpl.
  intros [H1 H2]%orb_false_iff. rewrite H1. by rewrite IH.
Qed.

(** A text without a header break and with at least one word is one
    section: the text, stripped. *)
Lemma split_by_headers_one (t : str) :
  has_header_break t = false -> split t <> [] ->
  _split_by_headers t = [strip t].
Proof.
  intros Hb Hw. unfold _split_by_headers.
  rewrite re_split_no_header by done. simpl.
  rewrite bool_decide_false; [done|].
  intros Heq. apply Hw. by rewrite <- split_strip, Heq.
Qed.

End StringFacts.

(** ** Facts about slices *)

Section SliceFacts.

Context {A : Type}.
Implicit Types l : list A.

Lemma py_slice_inner l (i j : Z) :
  0 <= i <= j -> j <= len l ->
  py_slice l i j = take (Z.to_nat (j - i)) (drop (Z.to_nat i) l).
Proof.
  unfold py_slice, slice_bound, len. intros Hij Hj.
  destruct (Z.ltb_spec i 0); [lia|].
  destruct (Z.ltb_spec j 0); [lia|].
  by rewrite !Z.min_l by lia.
Qed.

Lemma len_py_slice_inner l (i j : Z) :
  0 <= i <= j -> j <= len l -> len (py_slice l i j) = j - i.
Proof.
  intros Hij Hj. rewrite py_slice_inner by done. unfold len in *.
  rewrite length_take, length_drop. lia.
Qed.

Lemma Forall_py_slice (P : A -> Prop) l (i j : Z) :
  Forall P l -> Forall P (py_slice l i j).
Proof. intros H. unfold py_slice. by apply Forall_take, Forall_drop. Qed.

End SliceFacts.

(** ** Facts about the windowing loop *)

Lemma zseq_app (a : Z) (n m : nat) :
  zseq a (n + m) = zseq a n ++ zseq (a + Z.of_nat n) m.
Proof.
  revert a. induction n as [|n IH]; intros a; simpl.
  - by rewrite Z.add_0_r.
  - rewrite IH. do 3 f_equal. lia.
Qed.

Section LoopFacts.

Variable self : SemanticChunker.
Variable content_unit : ContentUnit.
Variable words : list str.

Let step := max_chunk self - overlap self.
Let n := len words.

Local Abbreviation body := (loop_body self content_unit words).
Local Abbreviation loop := (fun fuel => while_loop self content_unit fuel words).
Local Abbreviation window := (window_words self words).
Local Abbreviation wins := (windows_from self content_unit words).

Lemma w_i_loop_body (st : Window) : w_i (body st) = w_i st + step.
Proof. unfold loop_body. by destruct (_ <=? _). Qed.

Lemma while_loop_step (fuel : nat) (st : Window) :
  w_i st < n -> loop (S fuel) st = loop fuel (body st).
Proof. intros H. simpl. fold n. by destruct (Z.ltb_spec (w_i st) n); [|lia]. Qed.

Lemma while_loop_exit (fuel : nat) (st : Window) :
  n <= w_i st -> loop fuel st = Some (w_chunks st).
Proof.
  intros H. destruct fuel; simpl; fold n;
    by destruct (Z.ltb_spec (w_i st) n); [lia|].
Qed.

Lemma loop_body_emit (st : Window) :
  min_chunk self <= len (window (w_i st)) ->
  body st =
    {| w_i := w_i st + step;
       w_chunk_idx := w_chunk_idx st + 1;
       w_chunks := w_chunks st ++
         [mk_chunk content_unit (w_chunk_idx st)
                   (join [SPACE] (window (w_i st)))] |}.
Proof.
  intros H. unfold loop_body.
  by destruct (Z.leb_spec (min_chunk self) (len (window (w_i st)))); [|lia].
Qed.

Lemma window_words_take (i : Z) :
  0 <= max_chunk self -> 0 <= i <= n ->
  window i =
    take (Z.to_nat (Z.min (max_chunk self) (n - i))) (drop (Z.to_nat i) words).
Proof.
  intros Hmax Hi. unfold window_words. fold n.
  rewrite py_slice_inner by (fold n; lia). do 2 f_equal. lia.
Qed.

Lemma len_window_words (i : Z) :
  0 <= max_chunk self -> 0 <= i <= n ->
  len (window i) = Z.min (max_chunk self) (n - i).
Proof.
  intros Hmax Hi. unfold window_words. fold n.
  rewrite len_py_slice_inner by (fold n; lia). lia.
Qed.

Lemma length_windows_from (m : nat) (i idx : Z) :
  length (wins m i idx) = m.
Proof. revert i idx. induction m; intros; simpl; by rewrite ?IHm. Qed.

Lemma lookup_windows_from (m : nat) (i idx : Z) (j : nat) (c : ContentChunk) :
  wins m i idx !! j = Some c ->
  (j < m)%nat /\
  c = mk_chunk content_unit (idx + Z.of_nat j)
        (join [SPACE] (window (i + Z.of_nat j * step))).
Proof.
  revert i idx j. induction m as [|m IH]; intros i idx j; simpl; [done|].
  destruct j as [|j]; simpl.
  - intros [= <-]. split; [lia|]. f_equal; [lia|]. do 2 f_equal. lia.
  - intros [Hj ->]%IH. split; [lia|]. f_equal; [lia|]. do 2 f_equal. lia.
Qed.

Lemma chunk_index_windows_from (m : nat) (i idx : Z) :
  map chunk_index (wins m i idx) = zseq idx m.
Proof. revert i idx. induction m; intros; simpl; by rewrite ?IHm. Qed.

(** What the loop appends is a run of consecutive windows: once a
    window is too short, so is every later one. *)
Lemma while_loop_windows (fuel : nat) (st : Window) (res : list ContentChunk) :
  1 <= step -> 0 <= max_chunk self -> 0 <= w_i st ->
  loop fuel st = Some res ->
  exists m : nat,
    res = w_chunks st ++ wins m (w_i st) (w_chunk_idx st) /\
    forall j : nat, (j < m)%nat ->
      w_i st + Z.of_nat j * step < n /\
      min_chunk self <= len (window (w_i st + Z.of_nat j * step)).
Proof.
  intros Hstep Hmax. revert st.
  assert (Hstop : forall st : Window,
    0 <= w_i st -> ~ w_i st < n -> Some (w_chunks st) = Some res ->
    exists m : nat,
      res = w_chunks st ++ wins m (w_i st) (w_chunk_idx st) /\
      forall j : nat, (j < m)%nat ->
        w_i st + Z.of_nat j * step < n /\
        min_chunk self <= len (window (w_i st + Z.of_nat j * step))).
  { intros st _ _ [= <-]. exists O. simpl. rewrite app_nil_r.
    split; [done | intros; lia]. }
  induction fuel as [|fuel IH]; intros st Hi; simpl; fold n;
    destruct (Z.ltb_spec (w_i st) n) as [Hlt|Hge];
    try (intros; by apply Hstop; [|lia|]); [done|].
  intros Hrun.
  apply IH in Hrun; [|rewrite w_i_loop_body; lia].
  destruct Hrun as (m & -> & Hall).
  revert Hall. unfold loop_body at 1 2 3 4 5.
  fold step. destruct (Z.leb_spec (min_chunk self) (len (window (w_i st))))
    as [Hmin|Hmin]; simpl; intros Hall.
  - exists (S m). split; [by rewrite <- app_assoc|].
    intros [|j] Hj.
    + rewrite Z.mul_0_l, Z.add_0_r. done.
    + specialize (Hall j ltac:(lia)).
      replace (w_i st + Z.of_nat (S j) * step)
        with (w_i st + step + Z.of_nat j * step) by lia. done.
  - destruct m as [|m].
    + exists O. split; [done | intros; lia].
    + exfalso. destruct (Hall O ltac:(lia)) as [Hlt' Hlen].
      rewrite Z.mul_0_l, Z.add_0_r in Hlt', Hlen.
      rewrite len_window_words in Hlen by lia.
      rewrite len_window_words in Hmin by lia. lia.
Qed.

(** The loop ends within [len(words) - i] runs of its body. *)
Lemma while_loop_terminates (fuel : nat) (st : Window) :
  1 <= step -> (Z.to_nat (n - w_i st) <= fuel)%nat ->
  is_Some (loop fuel st).
Proof.
  intros Hstep. revert st.
  induction fuel as [|fuel IH]; intros st Hfuel; simpl; fold n;
    destruct (Z.ltb_spec (w_i st) n) as [Hlt|Hge]; try done; [lia|].
  apply IH. rewrite w_i_loop_body. lia.
Qed.

Lemma while_loop_mono (fuel fuel' : nat) (st : Window) res :
  loop fuel st = Some res -> (fuel <= fuel')%nat -> loop fuel' st = Some res.
Proof.
  revert fuel' st. induction fuel as [|fuel IH]; intros fuel' st; simpl.
  - destruct (w_i st <? len words) eqn:Hc; [done|].
    intros [= <-] _. destruct fuel'; simpl; by rewrite Hc.
  - destruct (w_i st <? len words) eqn:Hc.
    + intros Hrun Hle. destruct fuel' as [|fuel']; [lia|]. simpl.
      rewrite Hc. apply IH; [done | lia].
    + intros [= <-] _. destruct fuel'; simpl; by rewrite Hc.
Qed.

(** The indices of the appended chunks count up from [chunk_idx], under
    any configuration. *)
Lemma while_loop_indices (fuel : nat) (st : Window) res :
  loop fuel st = Some res ->
  exists new, res = w_chunks st ++ new /\
              map chunk_index new = zseq (w_chunk_idx st) (length new).
Proof.
  revert st. induction fuel as [|fuel IH]; intros st; simpl.
  - destruct (w_i st <? len words); [done|]. intros [= <-].
    exists []. by rewrite app_nil_r.
  - destruct (w_i st <? len words).
    + intros (new & -> & Hnew)%IH. revert Hnew. unfold loop_body.
      destruct (_ <=? _); simpl; intros Hnew.
      * eexists (_ :: new). split; [by rewrite <- app_assoc|].
        simpl. by rewrite Hnew.
      * by exists new.
    + intros [= <-]. exists []. by rewrite app_nil_r.
Qed.

(** The loop as the iteration of its body: it leaves after exactly [k]
    runs, for a [k] within the fuel. *)
Lemma while_loop_iter (fuel : nat) (st : Window) res :
  loop fuel st = Some res ->
  exists k : nat,
    (k <= fuel)%nat /\
    (forall j : nat, (j < k)%nat -> w_i (Nat.iter j body st) < n) /\
    n <= w_i (Nat.iter k body st) /\
    res = w_chunks (Nat.iter k body st).
Proof.
  revert st. induction fuel as [|fuel IH]; intros st; simpl; fold n.
  - destruct (Z.ltb_spec (w_i st) n); [done|]. intros [= <-].
    exists O. simpl. repeat split; [lia | intros; lia | done].
  - destruct (Z.ltb_spec (w_i st) n) as [Hlt|Hge].
    + intros (k & Hk & Hbefore & Hexit & ->)%IH.
      exists (S k). rewrite Nat.iter_succ_r.
      repeat split; [lia | | done].
      intros [|j] Hj; [done|]. rewrite Nat.iter_succ_r.
      apply Hbefore. lia.
    + intros [= <-]. exists O. simpl.
      repeat split; [lia | intros; lia | done].
Qed.

End LoopFacts.

(** ** Facts about [_chunk_section] and [chunk_content] *)

Section SectionFacts.

Variable self : SemanticChunker.
Variable content_unit : ContentUnit.

Local Abbreviation chunk_section := (_chunk_section self content_unit).
Local Abbreviation sections_loop := (chunk_sections self content_unit).

Lemma chunk_section_whole (fuel : nat) (section : str) (start_idx : Z) :
  len (split section) <= max_chunk self ->
  chunk_section fuel section start_idx
  = Some [mk_chunk content_unit start_idx section].
Proof.
  intros H. unfold _chunk_section.
  by destruct (Z.leb_spec (len (split section)) (max_chunk self)); [|lia].
Qed.

Lemma chunk_section_windowed (fuel : nat) (section : str) (start_idx : Z) :
  max_chunk self < len (split section) ->
  chunk_section fuel section start_idx
  = while_loop self content_unit fuel (split section)
      {| w_i := 0; w_chunk_idx := start_idx; w_chunks := [] |}.
Proof.
  intros H. unfold _chunk_section.
  by destruct (Z.leb_spec (len (split section)) (max_chunk self)); [lia|].
Qed.

Lemma chunk_section_indices (fuel : nat) (section : str) (start_idx : Z) part :
  chunk_section fuel section start_idx = Some part ->
  map chunk_index part = zseq start_idx (length part).
Proof.
  unfold _chunk_section. destruct (_ <=? _).
  - by intros [= <-].
  - intros (new & -> & Hnew)%while_loop_indices. done.
Qed.

Lemma chunk_section_terminates (fuel : nat) (section : str) (start_idx : Z) :
  1 <= max_chunk self - overlap self ->
  (length (split section) <= fuel)%nat ->
  is_Some (chunk_section fuel section start_idx).
Proof.
  intros Hstep Hfuel. unfold _chunk_section. destruct (_ <=? _); [done|].
  apply while_loop_terminates; [done|]. simpl. unfold len. lia.
Qed.

Lemma chunk_section_mono (fuel fuel' : nat) (section : str) (start_idx : Z) part :
  chunk_section fuel section start_idx = Some part -> (fuel <= fuel')%nat ->
  chunk_section fuel' section start_idx = Some part.
Proof.
  unfold _chunk_section. destruct (_ <=? _); [done|].
  apply while_loop_mono.
Qed.

(** The chunks of a list of sections: those of the first part, then
    those of the rest, numbered from where the first part stopped. *)
Lemma chunk_sections_app (fuel : nat) (l1 l2 : list str) (idx : Z) acc res :
  sections_loop fuel (l1 ++ l2) idx acc = Some res ->
  exists new1,
    sections_loop fuel l1 idx acc = Some (acc ++ new1) /\
    sections_loop fuel l2 (idx + len new1) (acc ++ new1) = Some res.
Proof.
  revert idx acc. induction l1 as [|s l1 IH]; intros idx acc; simpl.
  - intros H. exists []. by rewrite app_nil_r, Z.add_0_r.
  - destruct (chunk_section fuel s idx) as [part|]; [|done].
    intros (new1 & H1 & H2)%IH. exists (part ++ new1).
    rewrite app_assoc. split; [done|].
    replace (idx + len (part ++ new1)) with (idx + len part + len new1); [done|].
    unfold len. rewrite length_app. lia.
Qed.

Lemma chunk_sections_indices (fuel : nat) (l : list str) (idx : Z) acc res :
  sections_loop fuel l idx acc = Some res ->
  exists new, res = acc ++ new /\
              map chunk_index new = zseq idx (length new).
Proof.
  revert idx acc. induction l as [|s l IH]; intros idx acc; simpl.
  - intros [= <-]. exists []. by rewrite app_nil_r.
  - destruct (chunk_section fuel s idx) as [part|] eqn:Hs; [|done].
    intros (new & -> & Hnew)%IH. exists (part ++ new).
    split; [by rewrite app_assoc|].
    rewrite map_app, length_app, zseq_app, Hnew.
    by rewrite (chunk_section_indices _ _ _ _ Hs).
Qed.

(** Every chunk of the result is already accumulated or comes from one
    of the sections. *)
Lemma chunk_sections_elem (fuel : nat) (l : list str) (idx : Z) acc res c :
  sections_loop fuel l idx acc = Some res -> c ∈ res ->
  c ∈ acc \/
  exists section start_idx part,
    section ∈ l /\ chunk_section fuel section start_idx = Some part /\ c ∈ part.
Proof.
  revert idx acc. induction l as [|s l IH]; intros idx acc; simpl.
  - intros [= <-]. by left.
  - destruct (chunk_section fuel s idx) as [part|] eqn:Hs; [|done].
    intros Hrun Hc. destruct (IH _ _ Hrun Hc) as [Hacc|Hlater].
    + apply elem_of_app in Hacc as [Hacc|Hpart]; [by left|].
      right. exists s, idx, part. split; [by left | done].
    + right. destruct Hlater as (s' & k & p & Hin & Hp & Hcp).
      exists s', k, p. split; [by right | done].
Qed.

Lemma chunk_sections_terminates (fuel : nat) (l : list str) (idx : Z) acc :
  1 <= max_chunk self - overlap self ->
  Forall (fun s => (length (split s) <= fuel)%nat) l ->
  is_Some (sections_loop fuel l idx acc).
Proof.
  intros Hstep Hl. revert idx acc.
  induction Hl as [|s l Hs Hl IH]; intros idx acc; simpl; [done|].
  destruct (chunk_section_terminates fuel s idx Hstep Hs) as [part ->].
  apply IH.
Qed.

Lemma chunk_sections_mono (fuel fuel' : nat) (l : list str) (idx : Z) acc res :
  sections_loop fuel l idx acc = Some res -> (fuel <= fuel')%nat ->
  sections_loop fuel' l idx acc = Some res.
Proof.
  intros Hrun Hle. revert idx acc Hrun.
  induction l as [|s l IH]; intros idx acc; simpl; [done|].
  destruct (chunk_section fuel s idx) as [part|] eqn:Hs; [|done].
  rewrite (chunk_section_mono _ _ _ _ _ Hs Hle). apply IH.
Qed.

Lemma sections_fuel_bound (t : str) :
  Forall (fun s => (length (split s) <= sections_fuel t)%nat)
         (_split_by_headers t).
Proof.
  unfold sections_fuel. induction (_split_by_headers t) as [|s l IH]; simpl.
  - constructor.
  - constructor; [lia|]. eapply Forall_impl; [exact IH|].
    simpl. intros. lia.
Qed.

Lemma chunk_content_terminates :
  1 <= max_chunk self - overlap self ->
  is_Some (chunk_content self content_unit
             (sections_fuel (full_text content_unit))).
Proof.
  intros Hstep. apply chunk_sections_terminates; [done|].
  apply sections_fuel_bound.
Qed.

End SectionFacts.

(** ** The chunker: the specified properties *)

Lemma split_window_words (self : SemanticChunker) (section : str) (i : Z) :
  split (join [SPACE] (window_words self (split section) i))
  = window_words self (split section) i.
Proof. apply split_join, Forall_py_slice, split_is_word. Qed.

(** C2: a content unit whose text has exactly 700 words and no header
    break, chunked with the defaults 512/64/100, gives exactly two chunks:
    index 0 holds words 1-512 and index 1 holds words 449-700 (252 words). *)
Theorem C2_scenario_700_words (content_unit : ContentUnit) (fuel : nat) :
  let words := split (full_text content_unit) in
  has_header_break (full_text content_unit) = false ->
  length words = 700%nat ->
  (2 <= fuel)%nat ->
  chunk_content default_chunker content_unit fuel
  = Some [mk_chunk content_unit 0 (join [SPACE] (take 512 words));
          mk_chunk content_unit 1 (join [SPACE] (drop 448 words))]
  /\ split (join [SPACE] (take 512 words)) = take 512 words
  /\ split (join [SPACE] (drop 448 words)) = drop 448 words
  /\ length (take 512 words) = 512%nat
  /\ length (drop 448 words) = 252%nat.
Proof.
  intros words Hb Hlen Hfuel.
  assert (Hn : len words = 700) by (unfold len; lia).
  assert (Hw0 : window_words default_chunker words 0 = take 512 words).
  { rewrite window_words_take by (simpl; lia). rewrite Hn. reflexivity. }
  assert (Hw1 : window_words default_chunker words 448 = drop 448 words).
  { rewrite window_words_take by (simpl; lia). rewrite Hn.
    change (take 252 (drop 448 words) = drop 448 words).
    apply take_ge. rewrite length_drop. lia. }
  assert (Hl0 : len (take 512 words) = 512).
  { unfold len. rewrite length_take. lia. }
  assert (Hl1 : len (drop 448 words) = 252).
  { unfold len. rewrite length_drop. lia. }
  repeat split.
  - unfold chunk_content.
    rewrite split_by_headers_one; [|done|by destruct (split _)].
    cbn [chunk_sections].
    rewrite chunk_section_windowed by (rewrite split_strip; fold words; rewrite Hn; done).
    rewrite split_strip. fold words.
    destruct fuel as [|[|fuel]]; [lia|lia|].
    rewrite while_loop_step by (cbn [w_i]; rewrite Hn; done).
    rewrite loop_body_emit by (cbn [w_i]; rewrite Hw0, Hl0; done).
    cbn [w_i w_chunk_idx w_chunks]. rewrite Hw0.
    change (0 + (max_chunk default_chunker - overlap default_chunker)) with 448.
    rewrite while_loop_step by (cbn [w_i]; rewrite Hn; done).
    rewrite loop_body_emit by (cbn [w_i]; rewrite Hw1, Hl1; done).
    cbn [w_i w_chunk_idx w_chunks]. rewrite Hw1.
    change (448 + (max_chunk default_chunker - overlap default_chunker)) with 896.
    rewrite while_loop_exit by (cbn [w_i]; rewrite Hn; done).
    reflexivity.
  - apply split_join, Forall_take, split_is_word.
  - apply split_join, Forall_drop, split_is_word.
  - rewrite length_take. lia.
  - rewrite length_drop. lia.
Qed.

Lemma C2_scenario_700_words_witness :
  let content_unit := test_unit (test_text 700) in
  let words := split (full_text content_unit) in
  chunk_content default_chunker content_unit 2
  = Some [mk_chunk content_unit 0 (join [SPACE] (take 512 words));
          mk_chunk content_unit 1 (join [SPACE] (drop 448 words))]
  /\ split (join [SPACE] (take 512 words)) = take 512 words
  /\ split (join [SPACE] (drop 448 words)) = drop 448 words
  /\ length (take 512 words) = 512%nat
  /\ length (drop 448 words) = 252%nat.
Proof.
  apply (C2_scenario_700_words (test_unit (test_text 700)) 2).
  - vm_compute. reflexivity.
  - vm_compute. reflexivity.
  - apply le_n.
Defined.

(** C3 (as stated, refuted): a configuration whose overlap equals the
    window size is accepted and chunks are produced under it. *)
Lemma C3_counterexample :
  let self := SemanticChunker_init 512 512 100 in
  let content_unit := test_unit (test_text 80) in
  max_chunk self <= overlap self /\
  chunk_content self content_unit 0
  = Some [mk_chunk content_unit 0 (test_text 80)].
Proof. split; [apply Z.le_refl | vm_compute; reflexivity]. Qed.

(** C3 (amended): nothing checks the configuration.  With
    [overlap_tokens >= max_chunk_tokens] the constructor stores the values
    as given, and chunking a content unit whose sections all have at most
    [max_chunk_tokens] words returns every section whole, one chunk per
    section, numbered from 0. *)
Theorem C3_unchecked_configuration
    (max_chunk_tokens overlap_tokens min_chunk_tokens : Z)
    (content_unit : ContentUnit) (fuel : nat) :
  let self :=
    SemanticChunker_init max_chunk_tokens overlap_tokens min_chunk_tokens in
  max_chunk_tokens <= overlap_tokens ->
  Forall (fun s => len (split s) <= max_chunk_tokens)
         (_split_by_headers (full_text content_unit)) ->
  max_chunk self = max_chunk_tokens /\ overlap self = overlap_tokens /\
  min_chunk self = min_chunk_tokens /\
  chunk_content self content_unit fuel
  = Some (imap (fun j s => mk_chunk content_unit (Z.of_nat j) s)
               (_split_by_headers (full_text content_unit))).
Proof.
  intros self _ Hshort. repeat split. unfold chunk_content.
  enough (Hgen : forall l idx acc,
    Forall (fun s => len (split s) <= max_chunk_tokens) l ->
    chunk_sections self content_unit fuel l idx acc
    = Some (acc ++ imap (fun j s => mk_chunk content_unit (idx + Z.of_nat j) s) l)).
  { rewrite Hgen by done. simpl. do 2 f_equal. }
  clear Hshort. intros l idx acc Hl. revert idx acc.
  induction Hl as [|s l Hs Hl IH]; intros idx acc; simpl.
  - by rewrite app_nil_r.
  - rewrite chunk_section_whole by done. rewrite IH.
    rewrite <- app_assoc. simpl. rewrite Z.add_0_r. do 3 f_equal.
    apply imap_ext. intros j s' _. simpl. f_equal. unfold len. simpl. lia.
Qed.

Lemma C3_unchecked_configuration_witness :
  let self := SemanticChunker_init 512 512 100 in
  let content_unit := test_unit (test_text 80) in
  max_chunk self = 512 /\ overlap self = 512 /\ min_chunk self = 100 /\
  chunk_content self content_unit 0
  = Some (imap (fun j s => mk_chunk content_unit (Z.of_nat j) s)
               (_split_by_headers (full_text content_unit))).
Proof.
  apply (C3_unchecked_configuration 512 512 100 (test_unit (test_text 80)) 0).
  - apply Z.le_refl.
  - vm_compute. repeat constructor; discriminate.
Defined.

(** Under the same configurations a section with more words than the
    window size keeps the loop running: the start position never moves
    forward, so no fuel is enough. *)
Lemma chunk_section_diverges (self : SemanticChunker)
    (content_unit : ContentUnit) (section : str) (start_idx : Z) (fuel : nat) :
  max_chunk self <= overlap self ->
  max_chunk self < len (split section) -> 0 < len (split section) ->
  _chunk_section self content_unit fuel section start_idx = None.
Proof.
  intros Hcfg Hlong Hne. rewrite chunk_section_windowed by done.
  enough (Hgen : forall st, w_i st <= 0 ->
            while_loop self content_unit fuel (split section) st = None)
    by (by apply Hgen).
  induction fuel as [|fuel IH]; intros st Hi; simpl;
    destruct (Z.ltb_spec (w_i st) (len (split section))); try lia; [done|].
  apply IH. rewrite w_i_loop_body. lia.
Qed.

(** C4 (as stated, refuted): with window 4, overlap 2 and minimum 1, the
    five words a b c d e give the chunks "a b c d", "c d e" and "e"; the
    last two words of the second chunk are d e, the third chunk has only
    e to offer. *)
Lemma C4_counterexample :
  let self := SemanticChunker_init 4 2 1 in
  let content_unit := test_unit (of_string "a b c d e") in
  valid_config self /\
  exists c0 c1 c2,
    chunk_content self content_unit 5
    = Some [c0; c1; c2] /\
    split (text c1) = [of_string "c"; of_string "d"; of_string "e"] /\
    split (text c2) = [of_string "e"] /\
    last_n (overlap self) (split (text c1))
    <> first_n (overlap self) (split (text c2)).
Proof.
  split; [by vm_compute|].
  eexists _, _, _. split; [vm_compute; reflexivity|].
  repeat split; vm_compute; discriminate.
Qed.

(** C4 (amended): for a valid configuration and two consecutive windowed
    chunks of one section, the last [overlap_tokens] words of the first
    equal the first [overlap_tokens] words of the second whenever the
    second has at least [overlap_tokens] words, which is always so when
    [min_chunk_tokens >= overlap_tokens] (as with the defaults). *)
Theorem C4_overlap_law (self : SemanticChunker) (content_unit : ContentUnit)
    (fuel : nat) (section : str) (start_idx : Z)
    (chunks : list ContentChunk) (j : nat) (c1 c2 : ContentChunk) :
  valid_config self ->
  max_chunk self < len (split section) ->
  _chunk_section self content_unit fuel section start_idx = Some chunks ->
  chunks !! j = Some c1 -> chunks !! S j = Some c2 ->
  overlap self <= min_chunk self \/ overlap self <= word_count c2 ->
  last_n (overlap self) (split (text c1))
  = first_n (overlap self) (split (text c2)).
Proof.
  intros [Hov Hmax] Hlong Hrun H1 H2 Hbig.
  rewrite chunk_section_windowed in Hrun by done.
  apply while_loop_windows in Hrun; [|simpl; lia..].
  destruct Hrun as (m & -> & Hall). simpl in H1, H2, Hall.
  apply lookup_windows_from in H1 as [Hj1 ->].
  apply lookup_windows_from in H2 as [Hj2 ->].
  destruct (Hall (S j) Hj2) as [Hlt2 Hmin2].
  unfold word_count in Hbig. cbn [text mk_chunk] in *.
  rewrite !split_window_words in *.
  set (words := split section) in *.
  set (step := max_chunk self - overlap self) in *.
  assert (Hi1 : 0 <= Z.of_nat j * step) by nia.
  assert (Hi2 : 0 + Z.of_nat (S j) * step = 0 + Z.of_nat j * step + step) by lia.
  rewrite len_window_words in Hbig, Hmin2 by lia.
  assert (Hfit : overlap self <= len words - (0 + Z.of_nat (S j) * step)) by lia.
  rewrite (window_words_take self words (0 + Z.of_nat j * step)) by lia.
  rewrite (window_words_take self words (0 + Z.of_nat (S j) * step)) by lia.
  unfold last_n, first_n. rewrite length_take, length_drop, take_take.
  unfold len in *.
  assert (Hfull : Z.to_nat (max_chunk self `min`
                    (Z.of_nat (length words) - (0 + Z.of_nat j * step)))
                  = (Z.to_nat step + Z.to_nat (overlap self))%nat) by lia.
  rewrite Hfull.
  replace (Z.to_nat (overlap self) `min`
           Z.to_nat (max_chunk self `min`
                     (Z.of_nat (length words) - (0 + Z.of_nat (S j) * step))))%nat
    with (Z.to_nat (overlap self)) by lia.
  replace (Z.to_nat (0 + Z.of_nat (S j) * step))
    with (Z.to_nat (0 + Z.of_nat j * step) + Z.to_nat step)%nat by lia.
  rewrite <- drop_drop.
  rewrite (take_drop_commute _ (Z.to_nat (overlap self)) (Z.to_nat step)).
  f_equal. lia.
Qed.

Lemma C4_overlap_law_witness :
  let self := SemanticChunker_init 4 2 2 in
  let content_unit := test_unit (of_string "a b c d e f") in
  last_n 2 [of_string "a"; of_string "b"; of_string "c"; of_string "d"]
  = first_n 2 [of_string "c"; of_string "d"; of_string "e"; of_string "f"].
Proof.
  apply (C4_overlap_law (SemanticChunker_init 4 2 2)
           (test_unit (of_string "a b c d e f")) 6
           (of_string "a b c d e f") 0
           [mk_chunk (test_unit (of_string "a b c d e f")) 0 (of_string "a b c d");
            mk_chunk (test_unit (of_string "a b c d e f")) 1 (of_string "c d e f");
            mk_chunk (test_unit (of_string "a b c d e f")) 2 (of_string "e f")]
           0
           (mk_chunk (test_unit (of_string "a b c d e f")) 0 (of_string "a b c d"))
           (mk_chunk (test_unit (of_string "a b c d e f")) 1 (of_string "c d e f"))).
  - split; [discriminate | reflexivity].
  - vm_compute. reflexivity.
  - vm_compute. reflexivity.
  - reflexivity.
  - reflexivity.
  - left. vm_compute. discriminate.
Defined.

(** C5: for a valid configuration chunking returns, and the chunk_index
    values of the result are 0, 1, ..., k-1 in order; the chunks of a
    section are numbered from the number of chunks of the sections
    before it. *)
Theorem C5_index_contiguity (self : SemanticChunker) (content_unit : ContentUnit) :
  valid_config self ->
  is_Some (chunk_content self content_unit
             (sections_fuel (full_text content_unit))) /\
  forall (fuel : nat) (chunks : list ContentChunk),
    chunk_content self content_unit fuel = Some chunks ->
    map chunk_index chunks = zseq 0 (length chunks) /\
    forall (pre : list str) (section : str) (post : list str),
      _split_by_headers (full_text content_unit) = pre ++ section :: post ->
      exists before here after,
        chunks = before ++ here ++ after /\
        chunk_sections self content_unit fuel pre 0 [] = Some before /\
        _chunk_section self content_unit fuel section (len before) = Some here.
Proof.
  intros [Hov Hmax]. split; [apply chunk_content_terminates; lia|].
  intros fuel chunks Hrun. split.
  - apply chunk_sections_indices in Hrun as (new & -> & Hnew). done.
  - intros pre section post Hsplit. unfold chunk_content in Hrun.
    rewrite Hsplit in Hrun.
    apply chunk_sections_app in Hrun as (before & Hpre & Hrest).
    simpl in Hpre, Hrest.
    destruct (_chunk_section self content_unit fuel section (0 + len before))
      as [here|] eqn:Hhere; [|done].
    apply chunk_sections_indices in Hrest as (after & -> & _).
    exists before, here, after. rewrite <- app_assoc. by rewrite Z.add_0_l in Hhere.
Qed.

Lemma C5_index_contiguity_witness :
  let self := SemanticChunker_init 4 2 2 in
  let content_unit := test_unit (of_string "a b c d e f") in
  is_Some (chunk_content self content_unit
             (sections_fuel (full_text content_unit))) /\
  forall (fuel : nat) (chunks : list ContentChunk),
    chunk_content self content_unit fuel = Some chunks ->
    map chunk_index chunks = zseq 0 (length chunks) /\
    forall (pre : list str) (section : str) (post : list str),
      _split_by_headers (full_text content_unit) = pre ++ section :: post ->
      exists before here after,
        chunks = before ++ here ++ after /\
        chunk_sections self content_unit fuel pre 0 [] = Some before /\
        _chunk_section self content_unit fuel section (len before) = Some here.
Proof.
  apply (C5_index_contiguity (SemanticChunker_init 4 2 2)
           (test_unit (of_string "a b c d e f"))).
  split; [discriminate | reflexivity].
Defined.

(** C6 (as stated, refuted): with window 4, overlap 2 and minimum 10 (a
    valid configuration) the four words a b c d are one section of
    exactly [max_chunk_tokens] words; it is emitted whole, below the
    minimum, and it is not shorter than [max_chunk_tokens]. *)
Lemma C6_counterexample :
  let self := SemanticChunker_init 4 2 10 in
  let content_unit := test_unit (of_string "a b c d") in
  let c := mk_chunk content_unit 0 (of_string "a b c d") in
  valid_config self /\
  chunk_content self content_unit 0 = Some [c] /\
  text c ∈ _split_by_headers (full_text content_unit) /\
  word_count c < min_chunk self /\
  ~ word_count c < max_chunk self.
Proof.
  split; [split; [discriminate | reflexivity]|].
  split; [vm_compute; reflexivity|].
  split; [vm_compute; apply list_elem_of_here|].
  split; [reflexivity | vm_compute; discriminate].
Qed.

(** C6 (amended): for a valid configuration chunking returns, every chunk
    has at most [max_chunk_tokens] words, and every chunk has at least
    [min_chunk_tokens] words except possibly a chunk that is a whole
    section of at most [max_chunk_tokens] words (of strictly fewer when
    the minimum does not exceed the maximum). *)
Theorem C6_size_bound (self : SemanticChunker) (content_unit : ContentUnit) :
  valid_config self ->
  is_Some (chunk_content self content_unit
             (sections_fuel (full_text content_unit))) /\
  forall (fuel : nat) (chunks : list ContentChunk) (c : ContentChunk),
    chunk_content self content_unit fuel = Some chunks -> c ∈ chunks ->
    word_count c <= max_chunk self /\
    (word_count c < min_chunk self ->
     text c ∈ _split_by_headers (full_text content_unit) /\
     (min_chunk self <= max_chunk self -> word_count c < max_chunk self)).
Proof.
  intros [Hov Hmax]. split; [apply chunk_content_terminates; lia|].
  intros fuel chunks c Hrun Hc.
  destruct (chunk_sections_elem _ _ _ _ _ _ _ _ Hrun Hc)
    as [Hnil|(section & start_idx & part & Hsec & Hpart & Hin)].
  { by apply elem_of_nil in Hnil. }
  destruct (Z.le_gt_cases (len (split section)) (max_chunk self)) as [Hshort|Hlong].
  - rewrite chunk_section_whole in Hpart by done.
    injection Hpart as <-. apply list_elem_of_singleton in Hin as ->.
    unfold word_count. simpl. split; [done|]. intros Hsmall.
    split; [done | lia].
  - rewrite chunk_section_windowed in Hpart by done.
    apply while_loop_windows in Hpart; [|simpl; lia..].
    destruct Hpart as (m & -> & Hall). simpl in Hin, Hall.
    apply list_elem_of_lookup in Hin as [j Hj].
    apply lookup_windows_from in Hj as [Hj ->].
    destruct (Hall j Hj) as [Hlt Hmin].
    unfold word_count. cbn [text mk_chunk]. rewrite split_window_words.
    assert (0 <= Z.of_nat j * (max_chunk self - overlap self)) by nia.
    rewrite len_window_words in * by lia. split; lia.
Qed.

Lemma C6_size_bound_witness :
  let self := SemanticChunker_init 4 2 2 in
  let content_unit := test_unit (of_string "a b c d e f") in
  is_Some (chunk_content self content_unit
             (sections_fuel (full_text content_unit))) /\
  forall (fuel : nat) (chunks : list ContentChunk) (c : ContentChunk),
    chunk_content self content_unit fuel = Some chunks -> c ∈ chunks ->
    word_count c <= max_chunk self /\
    (word_count c < min_chunk self ->
     text c ∈ _split_by_headers (full_text content_unit) /\
     (min_chunk self <= max_chunk self -> word_count c < max_chunk self)).
Proof.
  apply (C6_size_bound (SemanticChunker_init 4 2 2)
           (test_unit (of_string "a b c d e f"))).
  split; [discriminate | reflexivity].
Defined.

(** C10: when [max_chunk_tokens - overlap_tokens >= 1], every run of the
    loop body moves the window start strictly forward, the loop over a
    section of n words leaves after k <= n runs of its body, and chunking
    a section and a whole content unit returns. *)
Theorem C10_termination (self : SemanticChunker) (content_unit : ContentUnit) :
  1 <= max_chunk self - overlap self ->
  (forall (words : list str) (st : Window),
     w_i st < w_i (loop_body self content_unit words st)) /\
  (forall (words : list str) (start_idx : Z),
     let st0 := {| w_i := 0; w_chunk_idx := start_idx; w_chunks := [] |} in
     let body := loop_body self content_unit words in
     exists k : nat,
       (k <= length words)%nat /\
       (forall j : nat, (j < k)%nat -> w_i (Nat.iter j body st0) < len words) /\
       len words <= w_i (Nat.iter k body st0) /\
       while_loop self content_unit (length words) words st0
       = Some (w_chunks (Nat.iter k body st0))) /\
  (forall (section : str) (start_idx : Z),
     is_Some (_chunk_section self content_unit (length (split section))
                             section start_idx)) /\
  is_Some (chunk_content self content_unit
             (sections_fuel (full_text content_unit))).
Proof.
  intros Hstep. repeat split.
  - intros words st. rewrite w_i_loop_body. lia.
  - intros words start_idx st0 body.
    destruct (while_loop_terminates self content_unit words (length words) st0)
      as [res Hres]; [done | simpl; unfold len; lia |].
    destruct (while_loop_iter _ _ _ _ _ _ Hres) as (k & Hk & Hbefore & Hexit & ->).
    exists k. done.
  - intros section start_idx. by apply chunk_section_terminates.
  - by apply chunk_content_terminates.
Qed.

Lemma C10_termination_witness :
  let self := default_chunker in
  let content_unit := test_unit (test_text 80) in
  (forall (words : list str) (st : Window),
     w_i st < w_i (loop_body self content_unit words st)) /\
  (forall (words : list str) (start_idx : Z),
     let st0 := {| w_i := 0; w_chunk_idx := start_idx; w_chunks := [] |} in
     let body := loop_body self content_unit words in
     exists k : nat,
       (k <= length words)%nat /\
       (forall j : nat, (j < k)%nat -> w_i (Nat.iter j body st0) < len words) /\
       len words <= w_i (Nat.iter k body st0) /\
       while_loop self content_unit (length words) words st0
       = Some (w_chunks (Nat.iter k body st0))) /\
  (forall (section : str) (start_idx : Z),
     is_Some (_chunk_section self content_unit (length (split section))
                             section start_idx)) /\
  is_Some (chunk_content self content_unit
             (sections_fuel (full_text content_unit))).
Proof.
  apply (C10_termination default_chunker (test_unit (test_text 80))).
  discriminate.
Defined.

(** ** Facts about the upsert *)

Section StoreFacts.

Context {num : Type}.
Variable db_accepts : ContentChunk -> list num -> bool.

Implicit Types (t : gmap (str * Z) (Row num)) (w : World num).
Implicit Types (p : ContentChunk * list num) (k : str * Z).
Implicit Types (pairs : list (ContentChunk * list num)).

Lemma lookup_upsert_row t (chunk : ContentChunk) (e : list num) k :
  upsert_row t chunk e !! k = cell_step k (t !! k) (chunk, e).
Proof.
  unfold upsert_row, cell_step. simpl.
  destruct (decide (key chunk = k)) as [<-|Hne].
  - destruct (t !! key chunk); by rewrite lookup_insert_eq.
  - destruct (t !! key chunk); by rewrite lookup_insert_ne.
Qed.

Lemma lookup_upsert_all pairs t k :
  upsert_all pairs t !! k = foldl (cell_step k) (t !! k) pairs.
Proof.
  revert t. induction pairs as [|[c e] pairs IH]; intros t; [done|].
  unfold upsert_all in *. simpl. by rewrite IH, lookup_upsert_row.
Qed.

Lemma upsert_all_app pairs1 pairs2 t :
  upsert_all (pairs1 ++ pairs2) t = upsert_all pairs2 (upsert_all pairs1 t).
Proof. unfold upsert_all. by rewrite foldl_app. Qed.

(** On an existing row the statements change the vector only. *)
Lemma cell_fold_some k pairs (r : Row num) :
  foldl (cell_step k) (Some r) pairs
  = Some (set_embedding (emb_after k pairs (embedding r)) r).
Proof.
  revert r. induction pairs as [|p pairs IH]; intros r; simpl.
  - by destruct r.
  - unfold cell_step at 2, emb_after. simpl.
    destruct (decide (key p.1 = k)); [|apply IH].
    rewrite IH. by destruct r.
Qed.

Lemma emb_after_cases k pairs :
  (forall e0, emb_after k pairs e0 = e0) \/
  (forall e0 e1, emb_after k pairs e0 = emb_after k pairs e1).
Proof.
  induction pairs as [|p pairs IH]; [by left|].
  unfold emb_after in *. simpl.
  destruct (decide (key p.1 = k)); [by right|].
  destruct IH as [IH|IH]; [left | right]; intros; apply IH.
Qed.

Lemma emb_after_idem k pairs (e0 : list num) :
  emb_after k pairs (emb_after k pairs e0) = emb_after k pairs e0.
Proof. destruct (emb_after_cases k pairs) as [H|H]; [by rewrite !H | apply H]. Qed.

Lemma cell_fold_none k pairs (r : Row num) :
  foldl (cell_step k) None pairs = Some r ->
  exists e0, embedding r = emb_after k pairs e0.
Proof.
  induction pairs as [|p pairs IH]; [done|]. simpl.
  unfold cell_step at 2, emb_after. simpl.
  destruct (decide (key p.1 = k)); [|apply IH].
  rewrite cell_fold_some. intros [= <-]. by exists [].
Qed.

Lemma cell_fold_idem k pairs (cell : option (Row num)) :
  foldl (cell_step k) (foldl (cell_step k) cell pairs) pairs
  = foldl (cell_step k) cell pairs.
Proof.
  destruct cell as [r|].
  - rewrite !cell_fold_some. simpl. by rewrite emb_after_idem.
  - destruct (foldl (cell_step k) None pairs) as [r|] eqn:Hr; [|by rewrite Hr].
    destruct (cell_fold_none _ _ _ Hr) as [e0 He0].
    rewrite cell_fold_some, He0, emb_after_idem, <- He0. by destruct r.
Qed.

(** Running the statements of a list twice gives the table of running
    them once. *)
Lemma upsert_all_idem pairs t :
  upsert_all pairs (upsert_all pairs t) = upsert_all pairs t.
Proof.
  apply map_eq. intros k. rewrite !lookup_upsert_all. apply cell_fold_idem.
Qed.

Lemma accepted_prefix_idem pairs :
  accepted_prefix db_accepts (accepted_prefix db_accepts pairs)
  = accepted_prefix db_accepts pairs.
Proof.
  induction pairs as [|p pairs IH]; [done|]. simpl.
  destruct (db_accepts p.1 p.2) eqn:Hp; [|done]. simpl. by rewrite Hp, IH.
Qed.

Lemma accepted_prefix_all pairs :
  Forall (fun p => db_accepts p.1 p.2 = true) pairs ->
  accepted_prefix db_accepts pairs = pairs /\
  upsert_outcome db_accepts pairs = inr tt.
Proof.
  induction 1 as [|p pairs Hp _ [IH1 IH2]]; [done|]. simpl.
  by rewrite Hp, IH1, IH2.
Qed.

(** The loop of [upsert]: it writes the pairs before the first refused
    one and ends as [upsert_outcome] says. *)
Lemma upsert_spec pairs w :
  upsert db_accepts pairs w
  = (upsert_outcome db_accepts pairs,
     with_table (upsert_all (accepted_prefix db_accepts pairs) (table w)) w).
Proof.
  revert w. induction pairs as [|p pairs IH]; intros w.
  - by destruct w.
  - unfold upsert in *. simpl. unfold bind, execute.
    destruct (db_accepts p.1 p.2); [|by destruct w].
    rewrite IH. by destruct w.
Qed.

Lemma accepted_prefix_refused pre p post :
  Forall (fun q => db_accepts q.1 q.2 = true) pre ->
  db_accepts p.1 p.2 = false ->
  accepted_prefix db_accepts (pre ++ p :: post) = pre /\
  upsert_outcome db_accepts (pre ++ p :: post)
  = inl (PostgresError (content_unit_id p.1) (chunk_index p.1)).
Proof.
  intros Hpre Hp. induction Hpre as [|q pre Hq _ [IH1 IH2]]; simpl.
  - by rewrite Hp.
  - by rewrite Hq, IH1, IH2.
Qed.




(** A [for] loop stops at the first step that raises. *)
Lemma for_each_raise {A} (f : A -> M num unit) (pre : list A) (x : A)
    (post : list A) w w1 w2 (e : Exn) :
  for_each f pre w = (inr tt, w1) -> f x w1 = (inl e, w2) ->
  for_each f (pre ++ x :: post) w = (inl e, w2).
Proof.
  revert w. induction pre as [|y pre IH]; intros w; simpl.
  - intros [= <-] Hx. unfold bind. by rewrite Hx.
  - unfold bind. destruct (f y w) as [[e'|[]] w'] eqn:Hy; [done|].
    apply IH.
Qed.

Variable embed_server : list str -> option (list (list num)).

Local Abbreviation batch_step := (embed_batch embed_server db_accepts).
Local Abbreviation run := (embed_chunks_to_db embed_server db_accepts).
Local Abbreviation written := (executed_pairs embed_server db_accepts).

(** The table after the batch loop: the statements of [executed_pairs]. *)
Lemma for_each_embed_batch_table (chunks : list ContentChunk)
    (batch_size : Z) (starts : list Z) w :
  table (for_each (batch_step chunks batch_size) starts w).2
  = upsert_all (written chunks batch_size starts) (table w).
Proof.
  revert w. induction starts as [|i rest IH]; intros w; [done|].
  simpl. unfold bind at 1. unfold embed_batch at 1. unfold bind, embed_texts.
  destruct (embed_server _) as [embeddings|]; [|done].
  unfold ret. rewrite upsert_spec.
  destruct (upsert_outcome db_accepts _) as [e|[]] eqn:Hout; [done|].
  unfold print. simpl. rewrite IH. simpl.
  rewrite upsert_all_app. do 2 f_equal.
  clear -Hout. induction (zip _ _) as [|p ps IHp]; [done|]. simpl in *.
  destruct (db_accepts p.1 p.2); [|done]. f_equal. by apply IHp.
Qed.

Lemma embed_chunks_to_db_table (chunks : list ContentChunk)
    (batch_size : Z) w :
  table (run chunks batch_size w).2
  = match py_range 0 (len chunks) batch_size with
    | Some starts => upsert_all (written chunks batch_size starts) (table w)
    | None => table w
    end.
Proof.
  unfold embed_chunks_to_db, bind, try_finally, connect, close.
  destruct (py_range _ _ _) as [starts|].
  - destruct (for_each _ _ _) as [r w'] eqn:Hrun. simpl.
    change w' with (r, w').2. rewrite <- Hrun.
    by rewrite for_each_embed_batch_table.
  - done.
Qed.

(** Running the whole pipeline again on the same chunks, against a server
    that answers the same, leaves the table of the first run. *)
Lemma embed_chunks_to_db_rerun (chunks : list ContentChunk)
    (batch_size : Z) w :
  table (run chunks batch_size (run chunks batch_size w).2).2
  = table (run chunks batch_size w).2.
Proof.
  rewrite !embed_chunks_to_db_table.
  destruct (py_range _ _ _); [apply upsert_all_idem | done].
Qed.

(** A run always ends with the connection closed. *)
Lemma embed_chunks_to_db_closes (chunks : list ContentChunk)
    (batch_size : Z) w :
  conn_open (run chunks batch_size w).2 = false.
Proof.
  unfold embed_chunks_to_db, bind, try_finally, connect, close.
  destruct (py_range _ _ _) as [starts|]; [|done].
  by destruct (for_each _ _ _).
Qed.

End StoreFacts.

(** ** The store: the specified properties *)

(** C1 (as stated, refuted): a row written with the title "Mitosis" and
    then upserted again under the same key with the title "Meiosis" and a
    new vector gets the new vector and keeps the old text and metadata. *)
Lemma C1_counterexample :
  let old := test_chunk 0 "cells divide" "Mitosis" in
  let new := test_chunk 0 "cells divide twice" "Meiosis" in
  let w1 := (upsert accept_all [(old, [1; 2])] empty_world).2 in
  let w2 := (upsert accept_all [(new, [3; 4])] w1).2 in
  key new = key old /\
  table w1 !! key new
  = Some {| chunk_text := text old; embedding := [1; 2];
            row_metadata := metadata old |} /\
  table w2 !! key new
  = Some {| chunk_text := text old; embedding := [3; 4];
            row_metadata := metadata old |} /\
  metadata old <> metadata new.
Proof. repeat split; [vm_compute; reflexivity..|discriminate]. Qed.

(** C1 (amended): when a row with the key of the pair exists and the
    database accepts the statement, the statement replaces the embedding
    of that row and nothing else: the row keeps its chunk_text and its
    metadata, and the other rows are untouched. *)
Theorem C1_conflict_replaces_embedding_only {num : Type}
    (db_accepts : ContentChunk -> list num -> bool) (w : World num)
    (chunk : ContentChunk) (e : list num) (r : Row num) :
  table w !! key chunk = Some r ->
  db_accepts chunk e = true ->
  exists w',
    execute db_accepts chunk e w = (inr tt, w') /\
    table w' !! key chunk
    = Some {| chunk_text := chunk_text r; embedding := e;
              row_metadata := row_metadata r |} /\
    (forall k, k <> key chunk -> table w' !! k = table w !! k) /\
    conn_open w' = conn_open w /\ stdout w' = stdout w.
Proof.
  intros Hrow Hok. unfold execute. rewrite Hok. eexists. split; [done|].
  simpl. repeat split.
  - rewrite lookup_upsert_row, Hrow. unfold cell_step. simpl.
    by rewrite decide_True.
  - intros k Hk. rewrite lookup_upsert_row. unfold cell_step. simpl.
    by rewrite decide_False.
Qed.

Lemma C1_conflict_replaces_embedding_only_witness :
  let old := test_chunk 0 "cells divide" "Mitosis" in
  let new := test_chunk 0 "cells divide twice" "Meiosis" in
  let w := (upsert accept_all [(old, [1; 2])] empty_world).2 in
  exists w',
    execute accept_all new [3; 4] w = (inr tt, w') /\
    table w' !! key new
    = Some {| chunk_text := text old; embedding := [3; 4];
              row_metadata := metadata old |} /\
    (forall k, k <> key new -> table w' !! k = table w !! k) /\
    conn_open w' = conn_open w /\ stdout w' = stdout w.
Proof.
  apply (C1_conflict_replaces_embedding_only accept_all
           (upsert accept_all
              [(test_chunk 0 "cells divide" "Mitosis", [1; 2])] empty_world).2
           (test_chunk 0 "cells divide twice" "Meiosis") [3; 4]
           {| chunk_text := of_string "cells divide"; embedding := [1; 2];
              row_metadata := metadata (test_chunk 0 "cells divide" "Mitosis") |}).
  - vm_compute. reflexivity.
  - reflexivity.
Defined.



Example empty_vector_run :
  let c0 := test_chunk 0 "cells divide" "Mitosis" in
  let run := embed_chunks_to_db empty_vector_server refuse_empty [c0] 32
                                empty_world in
  run.1 = inl (PostgresError (content_unit_id c0) 0) /\
  table run.2 !! key c0 = None /\ conn_open run.2 = false.
Proof. repeat split; vm_compute; reflexivity. Qed.

(** C8: upserting the same pairs a second time ends the same way and
    leaves the world (rows, keys, vectors, texts, metadata) exactly as the
    first time left it; the table has one row per key throughout. *)
Theorem C8_idempotent_upsert {num : Type}
    (db_accepts : ContentChunk -> list num -> bool) (w : World num)
    (pairs : list (ContentChunk * list num)) :
  upsert db_accepts pairs (upsert db_accepts pairs w).2
  = upsert db_accepts pairs w.
Proof.
  rewrite !upsert_spec. simpl. f_equal. unfold with_table. simpl. f_equal.
  set (ok := accepted_prefix db_accepts pairs).
  rewrite <- (upsert_all_idem ok (table w)) at 2.
  done.
Qed.

Example upsert_twice :
  let pairs := [(test_chunk 0 "cells divide" "Mitosis", [1; 2]);
                (test_chunk 1 "cells divide twice" "Meiosis", [3; 4]);
                (test_chunk 0 "cells divide" "Mitosis", [5; 6])] in
  let once := (upsert accept_all pairs empty_world).2 in
  let twice := (upsert accept_all pairs once).2 in
  size (table once) = 2%nat /\ size (table twice) = 2%nat /\
  embedding <$> (table twice !! key (test_chunk 0 "" "")) = Some [5; 6].
Proof. repeat split; vm_compute; reflexivity. Qed.

(** C9 (as stated, refuted): two batches of one chunk each; the request
    for the first batch fails, the second batch would have gone through.
    The run raises the error of the first batch; no row of the second
    batch is written and no batch is reported. *)
Lemma C9_counterexample :
  let c0 := test_chunk 0 "cells divide" "Mitosis" in
  let c1 := test_chunk 1 "cells divide twice" "Meiosis" in
  let server := flaky_server (text c0) in
  let run := embed_chunks_to_db server accept_all [c0; c1] 1 empty_world in
  py_range 0 (len [c0; c1]) 1 = Some [0; 1] /\
  (embed_batch server accept_all [c0; c1] 1 1 empty_world).1 = inr tt /\
  run.1 = inl (HTTPError [text c0]) /\
  table run.2 !! key c1 = None /\
  stdout run.2 = [].
Proof. repeat split; vm_compute; reflexivity. Qed.

(** C9 (amended): when a batch fails (its embedding request or one of its
    statements raises), the run raises that error right after closing
    the connection: the batches after it are not attempted, no summary is
    returned, and the world is the one the failing batch left. *)
Theorem C9_first_failure_ends_run {num : Type}
    (embed_server : list str -> option (list (list num)))
    (db_accepts : ContentChunk -> list num -> bool)
    (chunks : list ContentChunk) (batch_size : Z) (w w1 w2 : World num)
    (pre : list Z) (i : Z) (post : list Z) (e : Exn) :
  py_range 0 (len chunks) batch_size = Some (pre ++ i :: post) ->
  for_each (embed_batch embed_server db_accepts chunks batch_size) pre
           (connect w).2 = (inr tt, w1) ->
  embed_batch embed_server db_accepts chunks batch_size i w1 = (inl e, w2) ->
  embed_chunks_to_db embed_server db_accepts chunks batch_size w
  = (inl e, (close w2).2).
Proof.
  intros Hrange Hpre Hfail. unfold embed_chunks_to_db, bind, try_finally.
  simpl in *. rewrite Hrange.
  by rewrite (for_each_raise _ _ _ post _ _ _ _ Hpre Hfail).
Qed.

Lemma C9_first_failure_ends_run_witness :
  let c0 := test_chunk 0 "cells divide" "Mitosis" in
  let c1 := test_chunk 1 "cells divide twice" "Meiosis" in
  embed_chunks_to_db (flaky_server (text c0)) accept_all [c0; c1] 1 empty_world
  = (inl (HTTPError [text c0]), (close (connect empty_world).2).2).
Proof.
  apply (C9_first_failure_ends_run
           (flaky_server (text (test_chunk 0 "cells divide" "Mitosis")))
           accept_all
           [test_chunk 0 "cells divide" "Mitosis";
            test_chunk 1 "cells divide twice" "Meiosis"] 1
           empty_world (connect empty_world).2 (connect empty_world).2
           [] 0 [1]).
  - vm_compute. reflexivity.
  - reflexivity.
  - vm_compute. reflexivity.
Defined.

(** ** More about sections *)

Lemma split_nil_lstrip (s : str) : split s = [] -> lstrip s = [].
Proof.
  induction s as [|c s IH]; [done|]. simpl.
  destruct (isspace c); [exact IH|].
  destruct (word_start s); [by destruct (split s)|done].
Qed.

Lemma split_nil_strip (s : str) : split s = [] -> strip s = [].
Proof. intros H. unfold strip. by rewrite (split_nil_lstrip s H). Qed.

Lemma rstrip_idem (s : str) : rstrip (rstrip s) = rstrip s.
Proof.
  induction s as [|c s IH]; [done|]. simpl.
  destruct (rstrip s) as [|d r] eqn:Hr.
  - destruct (isspace c) eqn:Hc; simpl; by rewrite ?Hc.
  - change (rstrip (c :: d :: r)) with
      (match rstrip (d :: r) with
       | [] => if isspace c then [] else [c]
       | r' => c :: r'
       end).
    by rewrite IH.
Qed.

Lemma lstrip_word_start (s : str) : word_start s = true -> lstrip s = s.
Proof. destruct s as [|c s]; [done|]. simpl. by destruct (isspace c). Qed.

Lemma lstrip_cases (s : str) : lstrip s = [] \/ word_start (lstrip s) = true.
Proof.
  induction s as [|c s IH]; [by left|]. simpl.
  destruct (isspace c) eqn:Hc; [exact IH|]. right. simpl. by rewrite Hc.
Qed.

Lemma strip_idem (s : str) : strip (strip s) = strip s.
Proof.
  unfold strip. destruct (lstrip_cases s) as [->|Hs]; [done|].
  rewrite lstrip_word_start by (by rewrite word_start_rstrip).
  apply rstrip_idem.
Qed.

Lemma rstrip_cons_word (c : char) (s : str) :
  isspace c = false -> rstrip (c :: s) = c :: rstrip s.
Proof. intros Hc. simpl. destruct (rstrip s); by rewrite ?Hc. Qed.

Lemma re_split_headers_cons (s : str) :
  exists p ps, re_split_headers s = p :: ps.
Proof.
  destruct s as [|c s]; simpl; [by eexists _, _|].
  destruct (_ && _); [by eexists _, _|].
  destruct (re_split_headers s); by eexists _, _.
Qed.

(** The first piece starts like the text does. *)
Lemma word_start_re_split (s : str) (p : str) (ps : list str) :
  re_split_headers s = p :: ps -> word_start p = word_start s.
Proof.
  destruct s as [|c s]; simpl; [by intros [= <- <-]|].
  destruct ((c =? LF)%N && at_header s) eqn:Hcut.
  - intros [= <- <-]. apply andb_true_iff in Hcut as [->%N.eqb_eq _]. done.
  - destruct (re_split_headers s); by intros [= <- <-].
Qed.

Lemma split_word_start (s : str) : word_start s = true -> split s <> [].
Proof.
  destruct s as [|d s]; [done|]. simpl. intros Hd.
  destruct (isspace d); [done|].
  destruct (word_start s); [by destruct (split s)|done].
Qed.

Lemma split_cons_app (c : char) (p : str) (rest : list str) (s : str) :
  word_start p = word_start s -> split p ++ rest = split s ->
  split (c :: p) ++ rest = split (c :: s).
Proof.
  intros Hws Hsp. simpl. rewrite Hws, <- Hsp.
  destruct (isspace c); [done|].
  destruct (word_start s) eqn:Hs; [|done].
  pose proof (split_word_start p Hws) as Hp.
  by destruct (split p).
Qed.

(** Cutting at header breaks loses no word. *)
Lemma split_re_split_headers (s : str) :
  concat (map split (re_split_headers s)) = split s.
Proof.
  induction s as [|c s IH]; [done|]. simpl.
  destruct ((c =? LF)%N && at_header s) eqn:Hcut.
  - apply andb_true_iff in Hcut as [->%N.eqb_eq _]. exact IH.
  - destruct (re_split_headers s) as [|p ps] eqn:Hr.
    + destruct (re_split_headers_cons s) as (? & ? & ?). congruence.
    + simpl in *. apply split_cons_app; [|done].
      by apply (word_start_re_split s p ps).
Qed.

Lemma split_kept_pieces (pieces : list str) :
  concat (map split
            (List.filter (fun s => negb (bool_decide (s = [])))
                         (map strip pieces)))
  = concat (map split pieces).
Proof.
  induction pieces as [|p pieces IH]; [done|]. cbn [map List.filter].
  case_bool_decide as Hp; cbn [negb map concat].
  - rewrite IH. by rewrite <- (split_strip p), Hp.
  - by rewrite IH, split_strip.
Qed.

Lemma elem_of_split_by_headers (t s : str) :
  s ∈ _split_by_headers t ->
  s <> [] /\ exists p, p ∈ re_split_headers t /\ s = strip p.
Proof.
  unfold _split_by_headers. rewrite list_elem_of_In, filter_In.
  intros [Hin Hne]. apply list_elem_of_In, list_elem_of_fmap in Hin as (p & -> & Hp).
  split; [|by exists p].
  by case_bool_decide.
Qed.

Lemma section_stripped (t s : str) :
  s ∈ _split_by_headers t -> s <> [] /\ strip s = s /\ split s <> [].
Proof.
  intros (Hne & p & _ & ->)%elem_of_split_by_headers.
  repeat split; [done | apply strip_idem |].
  intros Hnil. apply Hne. rewrite <- strip_idem. by apply split_nil_strip.
Qed.

Lemma sections_words (t : str) :
  concat (map split (_split_by_headers t)) = split t.
Proof.
  unfold _split_by_headers.
  by rewrite split_kept_pieces, split_re_split_headers.
Qed.

(** X1: every section that [_split_by_headers] returns is non-empty,
    carries no leading or trailing whitespace, and has at least one
    word. *)
Theorem X1_sections_stripped_nonempty (t s : str) :
  s ∈ _split_by_headers t ->
  s <> [] /\ strip s = s /\ split s <> [].
Proof. apply section_stripped. Qed.

Lemma X1_sections_stripped_nonempty_witness :
  let s := of_string "## b c" in
  s <> [] /\ strip s = s /\ split s <> [].
Proof.
  apply (X1_sections_stripped_nonempty (of_string "  a
## b c  
") (of_string "## b c")).
  vm_compute. apply list_elem_of_further, list_elem_of_here.
Defined.

(** X2: splitting a text into sections loses no word and keeps the
    order: the words of the sections, one section after the other, are
    the words of the text. *)
Theorem X2_sections_keep_all_words (t : str) :
  concat (map split (_split_by_headers t)) = split t.
Proof. apply sections_words. Qed.

Lemma opens_with_header_first (s p : str) (ps : list str) :
  at_header s = true -> re_split_headers s = p :: ps ->
  opens_with_header p = true.
Proof.
  destruct s as [|c1 [|c2 [|c3 s]]]; try done.
  intros [[->%N.eqb_eq ->%N.eqb_eq]%andb_true_iff Hc3]%andb_true_iff.
  change (re_split_headers (HASH :: HASH :: c3 :: s))
    with (match match re_split_headers (c3 :: s) with
                | q :: qs => (HASH :: q) :: qs
                | [] => [[HASH]]
                end with
          | q :: qs => (HASH :: q) :: qs
          | [] => [[HASH]]
          end).
  destruct (re_split_headers (c3 :: s)) as [|q qs] eqn:Hq.
  - destruct (re_split_headers_cons (c3 :: s)) as (? & ? & ?). congruence.
  - intros [= <- <-]. simpl.
    rewrite (word_start_re_split _ _ _ Hq). simpl. by rewrite Hc3.
Qed.

Lemma opens_with_header_later (s p : str) (ps : list str) :
  re_split_headers s = p :: ps ->
  Forall (fun q => opens_with_header q = true) ps.
Proof.
  revert p ps. induction s as [|c s IH]; intros p ps; simpl.
  - intros [= <- <-]. constructor.
  - destruct ((c =? LF)%N && at_header s) eqn:Hcut.
    + apply andb_true_iff in Hcut as [_ Hhdr].
      destruct (re_split_headers s) as [|q qs] eqn:Hq; intros [= <- <-];
        [constructor|].
      constructor; [by apply (opens_with_header_first s q qs) | by apply (IH q)].
    + destruct (re_split_headers s) as [|q qs] eqn:Hq; intros [= <- <-];
        [constructor | by apply (IH q)].
Qed.

Lemma opens_with_header_strip (p : str) :
  opens_with_header p = true -> opens_with_header (strip p) = true.
Proof.
  destruct p as [|c1 [|c2 r]]; try done. simpl.
  intros [[->%N.eqb_eq ->%N.eqb_eq]%andb_true_iff Hr]%andb_true_iff.
  unfold strip. change (lstrip (HASH :: HASH :: r)) with (HASH :: HASH :: r).
  rewrite !rstrip_cons_word by done. simpl.
  by rewrite word_start_rstrip.
Qed.

(** X3: every section after the first one opens with the level-2 marker:
    "##" followed by whitespace or by the end of the section. *)
Theorem X3_later_sections_open_with_header (t : str) :
  Forall (fun s => opens_with_header s = true) (tail (_split_by_headers t)).
Proof.
  unfold _split_by_headers.
  destruct (re_split_headers t) as [|p ps] eqn:Hr; [constructor|].
  assert (Hps : Forall (fun s => opens_with_header s = true)
                  (List.filter (fun s => negb (bool_decide (s = [])))
                               (map strip ps))).
  { apply opens_with_header_later in Hr.
    induction Hr as [|q qs Hq _ IH]; [constructor|]. cbn [map List.filter].
    case_bool_decide; cbn [negb]; [done|].
    constructor; [by apply opens_with_header_strip | done]. }
  cbn [map List.filter]. case_bool_decide; cbn [negb tail]; [|done].
  destruct Hps; [constructor | done].
Qed.

(** X4: a text without any word (empty, or whitespace only) has no
    section, and chunking it returns no chunk under every configuration
    and without running the loop. *)
Lemma blank_text_no_sections (t : str) :
  split t = [] -> _split_by_headers t = [].
Proof.
  intros Hblank. pose proof (sections_words t) as Hall.
  rewrite Hblank in Hall.
  destruct (_split_by_headers t) as [|s l] eqn:Hs; [done|].
  destruct (section_stripped t s) as (_ & _ & Hw); [rewrite Hs; by left|].
  simpl in Hall. by destruct (split s).
Qed.

Theorem X4_blank_text_no_chunks (self : SemanticChunker)
    (content_unit : ContentUnit) (fuel : nat) :
  split (full_text content_unit) = [] ->
  _split_by_headers (full_text content_unit) = [] /\
  chunk_content self content_unit fuel = Some [].
Proof.
  intros Hblank%blank_text_no_sections.
  split; [done|]. unfold chunk_content. by rewrite Hblank.
Qed.

Lemma X4_blank_text_no_chunks_witness :
  let content_unit := test_unit (of_string "
  ") in
  _split_by_headers (full_text content_unit) = [] /\
  chunk_content default_chunker content_unit 0 = Some [].
Proof.
  apply (X4_blank_text_no_chunks default_chunker (test_unit (of_string "
  ")) 0).
  reflexivity.
Defined.

(** ** More about the chunks of a unit *)

Section ChunkShape.

Variable self : SemanticChunker.
Variable content_unit : ContentUnit.

(** A chunk made by the windowing loop over [words]. *)
Local Abbreviation windowed words c :=
  (exists idx i, c = mk_chunk content_unit idx
                       (join [SPACE] (window_words self words i))).

Lemma while_loop_shape (fuel : nat) (words : list str) (st : Window) res :
  Forall (fun c => windowed words c) (w_chunks st) ->
  while_loop self content_unit fuel words st = Some res ->
  Forall (fun c => windowed words c) res.
Proof.
  revert st. induction fuel as [|fuel IH]; intros st Hst; simpl.
  - destruct (_ <? _); [done | by intros [= <-]].
  - destruct (_ <? _); [|by intros [= <-]].
    apply IH. unfold loop_body. destruct (_ <=? _); simpl; [|done].
    apply Forall_app. split; [done|]. constructor; [by eexists _, _ | constructor].
Qed.

(** Every chunk of a unit is a whole section or a window of the words of
    a section, under any configuration. *)
Lemma chunk_content_shape (fuel : nat) chunks (c : ContentChunk) :
  chunk_content self content_unit fuel = Some chunks -> c ∈ chunks ->
  exists section idx,
    section ∈ _split_by_headers (full_text content_unit) /\
    (c = mk_chunk content_unit idx section \/
     exists i, c = mk_chunk content_unit idx
                     (join [SPACE] (window_words self (split section) i))).
Proof.
  intros Hrun Hc.
  destruct (chunk_sections_elem _ _ _ _ _ _ _ _ Hrun Hc)
    as [Hnil|(section & start_idx & part & Hsec & Hpart & Hin)].
  { by apply elem_of_nil in Hnil. }
  unfold _chunk_section in Hpart. destruct (_ <=? _).
  - injection Hpart as <-. apply list_elem_of_singleton in Hin as ->.
    exists section, start_idx. split; [done | by left].
  - apply while_loop_shape in Hpart; [|constructor].
    rewrite Forall_forall in Hpart.
    destruct (Hpart c Hin) as (idx & i & ->).
    exists section, idx. split; [done | right; by exists i].
Qed.

End ChunkShape.

Lemma NoDup_zseq (a : Z) (n : nat) : NoDup (zseq a n).
Proof.
  revert a. induction n as [|n IH]; intros a; simpl; constructor; [|apply IH].
  assert (Hlow : forall m b x, x ∈ zseq b m -> b <= x).
  { clear. induction m as [|m IHm]; intros b x; simpl.
    - by intros ?%elem_of_nil.
    - intros [->|Hx%IHm]%elem_of_cons; lia. }
  intros Hin%Hlow. lia.
Qed.

Lemma chunk_content_keys (self : SemanticChunker)
    (content_unit : ContentUnit) (fuel : nat) (chunks : list ContentChunk) :
  chunk_content self content_unit fuel = Some chunks ->
  Forall (fun c => content_unit_id c = unit_id content_unit /\
                   metadata c = chunk_metadata content_unit) chunks /\
  NoDup (map key chunks).
Proof.
  intros Hrun. split.
  - apply Forall_forall. intros c Hc.
    destruct (chunk_content_shape _ _ _ _ _ Hrun Hc)
      as (section & idx & _ & [->|[i ->]]); done.
  - apply chunk_sections_indices in Hrun as (new & -> & Hnew). simpl.
    apply (NoDup_fmap_1 snd).
    change (NoDup (map snd (map key new))). rewrite map_map.
    change (NoDup (map chunk_index new)).
    rewrite Hnew. apply NoDup_zseq.
Qed.

(** X5: all chunks of a content unit carry the unit's id and the same
    metadata snapshot, and their store keys (content_unit_id,
    chunk_index) are pairwise distinct, under any configuration. *)
Theorem X5_chunk_keys_distinct (self : SemanticChunker)
    (content_unit : ContentUnit) (fuel : nat) (chunks : list ContentChunk) :
  chunk_content self content_unit fuel = Some chunks ->
  Forall (fun c => content_unit_id c = unit_id content_unit /\
                   metadata c = chunk_metadata content_unit) chunks /\
  NoDup (map key chunks).
Proof. apply chunk_content_keys. Qed.

Lemma X5_chunk_keys_distinct_witness :
  let content_unit := test_unit (of_string "a b c d e f") in
  let chunks :=
    [mk_chunk content_unit 0 (of_string "a b c d");
     mk_chunk content_unit 1 (of_string "c d e f");
     mk_chunk content_unit 2 (of_string "e f")] in
  Forall (fun c => content_unit_id c = unit_id content_unit /\
                   metadata c = chunk_metadata content_unit) chunks /\
  NoDup (map key chunks).
Proof.
  apply (X5_chunk_keys_distinct (SemanticChunker_init 4 2 2)
           (test_unit (of_string "a b c d e f")) 6).
  vm_compute. reflexivity.
Defined.

Lemma py_slice_run {A} (l : list A) (i j : Z) : is_run_of (py_slice l i j) l.
Proof.
  unfold py_slice.
  set (a := Z.to_nat _). set (b := Z.to_nat _).
  exists (take b l), (drop a (drop b l)).
  by rewrite (take_drop a), (take_drop b).
Qed.

Lemma is_run_of_trans {A} (x y z : list A) :
  is_run_of x y -> is_run_of y z -> is_run_of x z.
Proof.
  intros (b1 & a1 & ->) (b2 & a2 & ->).
  exists (b2 ++ b1), (a1 ++ a2). by rewrite <- !app_assoc.
Qed.

Lemma section_words_run (t section : str) :
  section ∈ _split_by_headers t -> is_run_of (split section) (split t).
Proof.
  intros (pre & post & Hs)%list_elem_of_split.
  rewrite <- (sections_words t), Hs, map_app, concat_app. simpl.
  by eexists _, _.
Qed.

(** X7: the words of every chunk are a run of consecutive words of the
    unit's text, in the order of the text: chunking never invents,
    reorders or skips a word inside a chunk, under any configuration. *)
Theorem X7_chunk_words_run_of_text (self : SemanticChunker)
    (content_unit : ContentUnit) (fuel : nat) (chunks : list ContentChunk)
    (c : ContentChunk) :
  chunk_content self content_unit fuel = Some chunks -> c ∈ chunks ->
  is_run_of (split (text c)) (split (full_text content_unit)).
Proof.
  intros Hrun Hc.
  destruct (chunk_content_shape _ _ _ _ _ Hrun Hc)
    as (section & idx & Hsec & [->|[i ->]]); simpl.
  - by apply section_words_run.
  - rewrite split_window_words.
    eapply is_run_of_trans; [apply py_slice_run | by apply section_words_run].
Qed.

Lemma X7_chunk_words_run_of_text_witness :
  is_run_of [of_string "c"; of_string "d"; of_string "e"; of_string "f"]
            (split (of_string "a b c d e f")).
Proof.
  apply (X7_chunk_words_run_of_text (SemanticChunker_init 4 2 2)
           (test_unit (of_string "a b c d e f")) 6
           [mk_chunk (test_unit (of_string "a b c d e f")) 0 (of_string "a b c d");
            mk_chunk (test_unit (of_string "a b c d e f")) 1 (of_string "c d e f");
            mk_chunk (test_unit (of_string "a b c d e f")) 2 (of_string "e f")]
           (mk_chunk (test_unit (of_string "a b c d e f")) 1 (of_string "c d e f"))).
  - vm_compute. reflexivity.
  - apply list_elem_of_further, list_elem_of_here.
Defined.

Lemma rstrip_snoc_word (s : str) (c : char) :
  isspace c = false -> rstrip (s ++ [c]) = s ++ [c].
Proof.
  intros Hc. induction s as [|x s IH]; simpl; [by rewrite Hc|].
  rewrite IH. by destruct s.
Qed.

Lemma word_last (w : str) :
  is_word w -> exists s c, w = s ++ [c] /\ isspace c = false.
Proof.
  intros [Hne Hw]. destruct (exists_last Hne) as (s & c & ->).
  exists s, c. split; [done|].
  apply Forall_app in Hw as [_ Hc]. by inversion Hc.
Qed.

Lemma join_words_ends (ws : list str) :
  ws <> [] -> Forall is_word ws ->
  word_start (join [SPACE] ws) = true /\
  exists s c, join [SPACE] ws = s ++ [c] /\ isspace c = false.
Proof.
  intros Hne Hws. induction Hws as [|w ws Hw Hws IH]; [done|].
  assert (Hfirst : forall rest, word_start (w ++ rest) = true).
  { destruct Hw as [Hw1 Hw2]. destruct w as [|c w]; [done|].
    inversion Hw2; subst. intros rest. simpl. by destruct (isspace c). }
  destruct ws as [|w2 ws].
  - simpl. split; [rewrite <- (app_nil_r w); apply Hfirst | by apply word_last].
  - change (join [SPACE] (w :: w2 :: ws))
      with (w ++ SPACE :: join [SPACE] (w2 :: ws)).
    split; [apply Hfirst|].
    destruct IH as [_ (s & c & -> & Hc)]; [done|].
    exists (w ++ SPACE :: s), c. split; [|done].
    by rewrite <- app_assoc.
Qed.

(** A text joined from words carries no outer whitespace. *)
Lemma strip_join_words (ws : list str) :
  ws <> [] -> Forall is_word ws ->
  strip (join [SPACE] ws) = join [SPACE] ws.
Proof.
  intros Hne Hws. destruct (join_words_ends ws Hne Hws) as [Hstart (s & c & Heq & Hc)].
  unfold strip. rewrite lstrip_word_start by done.
  rewrite Heq. by apply rstrip_snoc_word.
Qed.

(** X6: under a valid configuration every chunk has at least one word,
    and its text is non-empty and carries no leading or trailing
    whitespace. *)
Theorem X6_chunk_text_nonempty_stripped (self : SemanticChunker)
    (content_unit : ContentUnit) (fuel : nat) (chunks : list ContentChunk)
    (c : ContentChunk) :
  valid_config self ->
  chunk_content self content_unit fuel = Some chunks -> c ∈ chunks ->
  1 <= word_count c /\ text c <> [] /\ strip (text c) = text c.
Proof.
  intros [Hov Hmax] Hrun Hc.
  destruct (chunk_sections_elem _ _ _ _ _ _ _ _ Hrun Hc)
    as [Hnil|(section & start_idx & part & Hsec & Hpart & Hin)].
  { by apply elem_of_nil in Hnil. }
  destruct (section_stripped _ _ Hsec) as (Hne & Hstrip & Hwords).
  destruct (Z.le_gt_cases (len (split section)) (max_chunk self)) as [Hshort|Hlong].
  - rewrite chunk_section_whole in Hpart by done.
    injection Hpart as <-. apply list_elem_of_singleton in Hin as ->.
    unfold word_count, len. simpl. repeat split; [|done..].
    destruct (split section); [done | simpl; lia].
  - rewrite chunk_section_windowed in Hpart by done.
    apply while_loop_windows in Hpart; [|simpl; lia..].
    destruct Hpart as (m & -> & Hall). simpl in Hin, Hall.
    apply list_elem_of_lookup in Hin as [j Hj].
    apply lookup_windows_from in Hj as [Hj ->].
    destruct (Hall j Hj) as [Hlt _].
    assert (0 <= Z.of_nat j * (max_chunk self - overlap self)) by nia.
    assert (Hlen : 1 <= len (window_words self (split section)
                        (0 + Z.of_nat j * (max_chunk self - overlap self)))).
    { rewrite len_window_words by lia. lia. }
    unfold word_count. cbn [text mk_chunk]. rewrite split_window_words.
    set (ws := window_words _ _ _) in *.
    assert (Hws : ws <> []) by (intros Heq; rewrite Heq in Hlen; by compute in Hlen).
    assert (Hwords' : Forall is_word ws) by apply Forall_py_slice, split_is_word.
    repeat split; [done | | by apply strip_join_words].
    intros Heq. apply Hws. by rewrite <- (split_join ws), Heq.
Qed.

Lemma X6_chunk_text_nonempty_stripped_witness :
  let c := mk_chunk (test_unit (of_string "a b c d e f")) 2 (of_string "e f") in
  1 <= word_count c /\ text c <> [] /\ strip (text c) = text c.
Proof.
  apply (X6_chunk_text_nonempty_stripped (SemanticChunker_init 4 2 2)
           (test_unit (of_string "a b c d e f")) 6
           [mk_chunk (test_unit (of_string "a b c d e f")) 0 (of_string "a b c d");
            mk_chunk (test_unit (of_string "a b c d e f")) 1 (of_string "c d e f");
            mk_chunk (test_unit (of_string "a b c d e f")) 2 (of_string "e f")]).
  - split; [discriminate | reflexivity].
  - vm_compute. reflexivity.
  - do 2 apply list_elem_of_further. apply list_elem_of_here.
Defined.

Lemma chunk_sections_none (self : SemanticChunker) (content_unit : ContentUnit)
    (fuel : nat) (l : list str) (section : str) (idx : Z) acc :
  section ∈ l ->
  (forall k, _chunk_section self content_unit fuel section k = None) ->
  chunk_sections self content_unit fuel l idx acc = None.
Proof.
  intros Hin Hnone. revert idx acc.
  induction l as [|s l IH]; intros idx acc; [by apply elem_of_nil in Hin|].
  simpl. apply elem_of_cons in Hin as [<-|Hin]; [by rewrite Hnone|].
  destruct (_chunk_section _ _ _ s idx); [by apply IH | done].
Qed.

(** X10: with [overlap_tokens >= max_chunk_tokens], a content unit that
    has a section of more than [max_chunk_tokens] words is never chunked:
    the window start does not advance, so [chunk_content] does not return
    whatever the number of loop runs allowed. *)
Theorem X10_nonpositive_step_never_returns (self : SemanticChunker)
    (content_unit : ContentUnit) (section : str) (fuel : nat) :
  max_chunk self <= overlap self ->
  section ∈ _split_by_headers (full_text content_unit) ->
  max_chunk self < len (split section) ->
  chunk_content self content_unit fuel = None.
Proof.
  intros Hcfg Hsec Hlong. unfold chunk_content.
  apply (chunk_sections_none _ _ _ _ section); [done|].
  intros k. apply chunk_section_diverges; [done..|].
  destruct (section_stripped _ _ Hsec) as (_ & _ & Hw).
  unfold len. destruct (split section); [done | simpl; lia].
Qed.

Lemma X10_nonpositive_step_never_returns_witness :
  chunk_content (SemanticChunker_init 2 2 1)
                (test_unit (of_string "a b c")) 1000 = None.
Proof.
  apply (X10_nonpositive_step_never_returns (SemanticChunker_init 2 2 1)
           (test_unit (of_string "a b c")) (of_string "a b c") 1000).
  - apply Z.le_refl.
  - vm_compute. apply list_elem_of_here.
  - reflexivity.
Defined.

Section WindowRun.

Variable self : SemanticChunker.
Variable content_unit : ContentUnit.
Variable words : list str.

Local Abbreviation step := (max_chunk self - overlap self).
Local Abbreviation window := (window_words self words).
Local Abbreviation wins := (windows_from self content_unit words).

(** The run of windows that the loop appends stops only at the end of the
    words or at the first window that is too short. *)
Lemma while_loop_windows_max (fuel : nat) (st : Window) res :
  1 <= step -> 0 <= max_chunk self -> 0 <= w_i st ->
  while_loop self content_unit fuel words st = Some res ->
  exists m : nat,
    res = w_chunks st ++ wins m (w_i st) (w_chunk_idx st) /\
    (forall j : nat, (j < m)%nat ->
       w_i st + Z.of_nat j * step < len words /\
       min_chunk self <= len (window (w_i st + Z.of_nat j * step))) /\
    (len words <= w_i st + Z.of_nat m * step \/
     len (window (w_i st + Z.of_nat m * step)) < min_chunk self).
Proof.
  intros Hstep Hmax. revert st.
  induction fuel as [|fuel IH]; intros st Hi; simpl.
  - destruct (Z.ltb_spec (w_i st) (len words)); [done|]. intros [= <-].
    exists O. simpl. rewrite app_nil_r.
    split; [done|]. split; [intros; lia | left; lia].
  - destruct (Z.ltb_spec (w_i st) (len words)) as [Hlt|Hge].
    + intros Hrun.
      apply IH in Hrun; [|rewrite w_i_loop_body; lia].
      destruct Hrun as (m & -> & Hall & Hstop). revert Hall Hstop.
      unfold loop_body.
      destruct (Z.leb_spec (min_chunk self) (len (window (w_i st))))
        as [Hmin|Hmin]; simpl; intros Hall Hstop.
      * exists (S m). split; [by rewrite <- app_assoc|]. split.
        -- intros [|j] Hj; [by rewrite Z.mul_0_l, Z.add_0_r|].
           specialize (Hall j ltac:(lia)).
           by replace (w_i st + Z.of_nat (S j) * step)
             with (w_i st + step + Z.of_nat j * step) by lia.
        -- by replace (w_i st + Z.of_nat (S m) * step)
             with (w_i st + step + Z.of_nat m * step) by lia.
      * destruct m as [|m].
        -- exists O. simpl. split; [done|]. split; [intros; lia|].
           right. by rewrite Z.mul_0_l, Z.add_0_r.
        -- exfalso. destruct (Hall O ltac:(lia)) as [Hlt' Hlen].
           rewrite Z.mul_0_l, Z.add_0_r in Hlt', Hlen.
           rewrite len_window_words in Hlen by lia.
           rewrite len_window_words in Hmin by lia. lia.
    + intros [= <-]. exists O. simpl. rewrite app_nil_r.
      split; [done|]. split; [intros; lia | left; lia].
Qed.

Lemma lookup_windows_from_lt (m : nat) (i idx : Z) (j : nat) :
  (j < m)%nat ->
  wins m i idx !! j
  = Some (mk_chunk content_unit (idx + Z.of_nat j)
            (join [SPACE] (window (i + Z.of_nat j * step)))).
Proof.
  revert i idx j. induction m as [|m IH]; intros i idx j Hj; [lia|].
  destruct j as [|j]; simpl.
  - do 2 f_equal; [lia|]. do 2 f_equal. lia.
  - rewrite IH by lia. do 2 f_equal; [lia|]. do 2 f_equal. lia.
Qed.

End WindowRun.

(** X9: when the minimum exceeds the window size, a section with more
    than [max_chunk_tokens] words yields no chunk at all: every window is
    below the minimum, and the whole section is left out. *)
Theorem X9_minimum_above_maximum_drops_section (self : SemanticChunker)
    (content_unit : ContentUnit) (section : str) (start_idx : Z) :
  valid_config self ->
  max_chunk self < min_chunk self ->
  max_chunk self < len (split section) ->
  _chunk_section self content_unit (length (split section)) section start_idx
  = Some [].
Proof.
  intros [Hov Hmax] Hmin Hlong.
  destruct (chunk_section_terminates self content_unit
              (length (split section)) section start_idx) as [part Hpart];
    [lia | done |].
  rewrite Hpart. f_equal.
  rewrite chunk_section_windowed in Hpart by done.
  apply while_loop_windows in Hpart; [|simpl; lia..].
  destruct Hpart as (m & -> & Hall). destruct m as [|m]; [done|].
  exfalso. destruct (Hall O ltac:(lia)) as [Hlt Hlen]. simpl in Hlt, Hlen.
  rewrite len_window_words in Hlen by lia. lia.
Qed.

Lemma X9_minimum_above_maximum_drops_section_witness :
  _chunk_section (SemanticChunker_init 2 1 3) (test_unit (of_string "a b c"))
                 (length (split (of_string "a b c"))) (of_string "a b c") 0
  = Some [].
Proof.
  apply (X9_minimum_above_maximum_drops_section (SemanticChunker_init 2 1 3)
           (test_unit (of_string "a b c")) (of_string "a b c") 0).
  - split; [discriminate | reflexivity].
  - reflexivity.
  - reflexivity.
Defined.

(** X8: for a valid configuration with [min_chunk_tokens <=
    max_chunk_tokens], the chunks of a section with more than
    [max_chunk_tokens] words cover a prefix of its words: every word
    before position [covered] sits in chunk [j] at offset [p - j * step],
    the first [max_chunk_tokens] words are always covered, and the words
    left out at the end are fewer than [min_chunk_tokens -
    overlap_tokens] (none when the last window reaches the end). *)
Theorem X8_windowed_section_coverage (self : SemanticChunker)
    (content_unit : ContentUnit) (fuel : nat) (section : str)
    (start_idx : Z) (chunks : list ContentChunk) :
  valid_config self ->
  min_chunk self <= max_chunk self ->
  max_chunk self < len (split section) ->
  _chunk_section self content_unit fuel section start_idx = Some chunks ->
  let words := split section in
  let step := Z.to_nat (max_chunk self - overlap self) in
  exists covered : nat,
    (Z.to_nat (max_chunk self) <= covered <= length words)%nat /\
    (covered = length words \/
     len words - Z.of_nat covered < min_chunk self - overlap self) /\
    forall p : nat, (p < covered)%nat ->
      exists (j : nat) (c : ContentChunk),
        chunks !! j = Some c /\
        (j * step <= p)%nat /\
        split (text c) !! (p - j * step)%nat = words !! p.
Proof.
  intros [Hov Hmax] Hmin Hlong Hrun words step.
  rewrite chunk_section_windowed in Hrun by done. fold words in Hrun, Hlong.
  apply while_loop_windows_max in Hrun; [|simpl; lia..].
  destruct Hrun as (m & -> & Hall & Hstop). simpl in Hall, Hstop.
  assert (Hn : len words = Z.of_nat (length words)) by done.
  destruct m as [|m].
  { exfalso. simpl in Hstop. destruct Hstop as [Hstop|Hstop]; [lia|].
    rewrite len_window_words in Hstop by lia. lia. }
  set (s := max_chunk self - overlap self) in *.
  assert (Hs : Z.of_nat step = s) by (unfold step; lia).
  assert (Hms : 0 <= Z.of_nat m * s) by nia.
  exists (Z.to_nat (Z.min (Z.of_nat m * s + max_chunk self) (len words))).
  split; [lia|]. split.
  - destruct (Z.le_gt_cases (len words) (Z.of_nat m * s + max_chunk self))
      as [Hend|Hend]; [left; lia | right].
    destruct Hstop as [Hstop|Hstop]; [lia|].
    rewrite len_window_words in Hstop by lia. lia.
  - intros p Hp.
    set (j := ((p `div` step) `min` m)%nat).
    assert (Hdiv : (step * (p `div` step) <= p < step * (p `div` step) + step)%nat).
    { pose proof (Nat.div_mod_eq p step).
      pose proof (Nat.mod_upper_bound p step ltac:(lia)). lia. }
    assert (Hj : (j * step <= p)%nat) by (unfold j; nia).
    assert (Hjm : (j <= m)%nat) by (unfold j; lia).
    exists j, (mk_chunk content_unit (start_idx + Z.of_nat j)
                 (join [SPACE] (window_words self words (0 + Z.of_nat j * s)))).
    split; [apply lookup_windows_from_lt; lia|]. split; [done|].
    cbn [text mk_chunk]. unfold words at 1. rewrite split_window_words.
    fold words.
    assert (Hjs : Z.of_nat (j * step) = Z.of_nat j * s) by lia.
    assert (Hjn : Z.of_nat j * s <= Z.of_nat p) by lia.
    rewrite window_words_take by lia.
    rewrite lookup_take_lt, lookup_drop.
    + f_equal. lia.
    + assert (Hoff : Z.of_nat (p - j * step) < max_chunk self).
      { destruct (decide (j = m)) as [->|Hne]; [lia|].
        assert (j = (p `div` step)%nat) as Hjd by (unfold j in *; lia).
        rewrite Hjd in *. nia. }
      lia.
Qed.

Lemma X8_windowed_section_coverage_witness :
  let words := split (test_text 9) in
  exists covered : nat,
    (4 <= covered <= length words)%nat /\
    (covered = length words \/ len words - Z.of_nat covered < 3 - 1) /\
    forall p : nat, (p < covered)%nat ->
      exists (j : nat) (c : ContentChunk),
        windows_from (SemanticChunker_init 4 1 3) (test_unit (test_text 9))
                     words 3 0 0 !! j = Some c /\
        (j * 3 <= p)%nat /\
        split (text c) !! (p - j * 3)%nat = words !! p.
Proof.
  apply (X8_windowed_section_coverage (SemanticChunker_init 4 1 3)
           (test_unit (test_text 9)) 9 (test_text 9) 0
           (windows_from (SemanticChunker_init 4 1 3) (test_unit (test_text 9))
                         (split (test_text 9)) 3 0 0)).
  - split; [discriminate | reflexivity].
  - discriminate.
  - reflexivity.
  - vm_compute. reflexivity.
Defined.

Lemma chunk_section_nonempty (self : SemanticChunker)
    (content_unit : ContentUnit) (fuel : nat) (section : str)
    (start_idx : Z) part :
  valid_config self -> min_chunk self <= max_chunk self ->
  _chunk_section self content_unit fuel section start_idx = Some part ->
  part <> [].
Proof.
  intros [Hov Hmax] Hmin Hpart.
  destruct (Z.le_gt_cases (len (split section)) (max_chunk self)) as [Hshort|Hlong].
  - rewrite chunk_section_whole in Hpart by done. by injection Hpart as <-.
  - rewrite chunk_section_windowed in Hpart by done.
    apply while_loop_windows_max in Hpart; [|simpl; lia..].
    destruct Hpart as (m & -> & _ & Hstop). simpl in Hstop.
    destruct m as [|m]; [exfalso | done].
    simpl in Hstop. destruct Hstop as [Hstop|Hstop]; [lia|].
    rewrite len_window_words in Hstop by lia. lia.
Qed.

(** X11: for a valid configuration with [min_chunk_tokens <=
    max_chunk_tokens] every section yields at least one chunk, so a unit
    has at least as many chunks as sections, and a text with at least one
    word is never chunked to nothing. *)
Theorem X11_at_least_one_chunk_per_section (self : SemanticChunker)
    (content_unit : ContentUnit) (fuel : nat) (chunks : list ContentChunk) :
  valid_config self -> min_chunk self <= max_chunk self ->
  chunk_content self content_unit fuel = Some chunks ->
  (length (_split_by_headers (full_text content_unit)) <= length chunks)%nat /\
  (split (full_text content_unit) <> [] -> chunks <> []).
Proof.
  intros Hvalid Hmin Hrun.
  assert (Hlen : (length (_split_by_headers (full_text content_unit))
                  <= length chunks)%nat).
  { unfold chunk_content in Hrun.
    enough (Hgen : forall l idx acc res,
              chunk_sections self content_unit fuel l idx acc = Some res ->
              (length acc + length l <= length res)%nat)
      by (apply Hgen in Hrun; simpl in Hrun; lia).
    clear Hrun. induction l as [|s l IH]; intros idx acc res; simpl.
    - intros [= <-]. lia.
    - destruct (_chunk_section self content_unit fuel s idx) as [part|] eqn:Hs;
        [|done].
      intros Hres%IH. rewrite length_app in Hres.
      pose proof (chunk_section_nonempty _ _ _ _ _ _ Hvalid Hmin Hs).
      destruct part; [done | simpl in Hres; lia]. }
  split; [done|]. intros Hwords ->.
  destruct (_split_by_headers (full_text content_unit)) eqn:Hs; [|simpl in Hlen; lia].
  apply Hwords. by rewrite <- sections_words, Hs.
Qed.

Lemma X11_at_least_one_chunk_per_section_witness :
  let content_unit := test_unit (of_string "a b c d e f") in
  let chunks :=
    [mk_chunk content_unit 0 (of_string "a b c d");
     mk_chunk content_unit 1 (of_string "c d e f");
     mk_chunk content_unit 2 (of_string "e f")] in
  (length (_split_by_headers (full_text content_unit)) <= length chunks)%nat /\
  (split (full_text content_unit) <> [] -> chunks <> []).
Proof.
  apply (X11_at_least_one_chunk_per_section (SemanticChunker_init 4 2 2)
           (test_unit (of_string "a b c d e f")) 6).
  - split; [discriminate | reflexivity].
  - discriminate.
  - vm_compute. reflexivity.
Defined.

(** X23: the text of a chunk is either a section of the unit, verbatim
    (inner line breaks and spacing kept), or the words of a window joined
    by single spaces, so that re-joining its words gives the text back;
    under any configuration. *)
Theorem X23_chunk_text_verbatim_or_normalized (self : SemanticChunker)
    (content_unit : ContentUnit) (fuel : nat) (chunks : list ContentChunk)
    (c : ContentChunk) :
  chunk_content self content_unit fuel = Some chunks -> c ∈ chunks ->
  text c ∈ _split_by_headers (full_text content_unit) \/
  text c = join [SPACE] (split (text c)).
Proof.
  intros Hrun Hc.
  destruct (chunk_content_shape _ _ _ _ _ Hrun Hc)
    as (section & idx & Hsec & [->|[i ->]]); simpl; [by left | right].
  by rewrite split_window_words.
Qed.

Lemma X23_chunk_text_verbatim_or_normalized_witness :
  let content_unit := test_unit (of_string "a b
c  d e f") in
  let c := mk_chunk content_unit 1 (of_string "c d e f") in
  text c ∈ _split_by_headers (full_text content_unit) \/
  text c = join [SPACE] (split (text c)).
Proof.
  apply (X23_chunk_text_verbatim_or_normalized (SemanticChunker_init 4 2 2)
           (test_unit (of_string "a b
c  d e f")) 6
           [mk_chunk (test_unit (of_string "a b
c  d e f")) 0 (of_string "a b c d");
            mk_chunk (test_unit (of_string "a b
c  d e f")) 1 (of_string "c d e f");
            mk_chunk (test_unit (of_string "a b
c  d e f")) 2 (of_string "e f")]).
  - vm_compute. reflexivity.
  - apply list_elem_of_further, list_elem_of_here.
Defined.

(** ** More about batching and the run *)

Lemma py_slice_nonneg {A} (l : list A) (i j : Z) :
  0 <= i <= j ->
  py_slice l i j = take (Z.to_nat (j - i)) (drop (Z.to_nat i) l).
Proof.
  intros Hij. unfold py_slice, slice_bound.
  destruct (Z.ltb_spec i 0); [lia|]. destruct (Z.ltb_spec j 0); [lia|].
  destruct (Z.le_gt_cases (Z.of_nat (length l)) i) as [Hout|Hin].
  - rewrite !drop_ge by lia. by rewrite !take_nil.
  - rewrite (Z.min_l i) by lia.
    destruct (Z.le_gt_cases j (Z.of_nat (length l))).
    + by rewrite Z.min_l by lia.
    + rewrite Z.min_r by lia. rewrite !take_ge; [done|..];
        rewrite length_drop; lia.
Qed.

Lemma py_range_positive (n step : Z) :
  0 < step ->
  py_range 0 n step
  = Some (map (fun k : nat => Z.of_nat k * step)
              (seq 0 (Z.to_nat ((n + step - 1) `div` step)))).
Proof.
  intros Hstep. unfold py_range.
  destruct (Z.eqb_spec step 0); [lia|]. destruct (Z.ltb_spec 0 step); [|lia].
  by rewrite Z.sub_0_r.
Qed.

Lemma ceil_div_bounds (n bs : Z) :
  0 < bs -> 0 <= n ->
  let q := (n + bs - 1) `div` bs in
  0 <= q /\ n <= q * bs /\ (q - 1) * bs < n.
Proof.
  intros Hbs Hn q.
  pose proof (Z.div_mod (n + bs - 1) bs ltac:(lia)) as Hdm.
  pose proof (Z.mod_pos_bound (n + bs - 1) bs Hbs) as Hmod.
  fold q in Hdm. assert (0 <= q) by (apply Z.div_pos; lia).
  repeat split; [done|nia..].
Qed.

Lemma concat_take_drop {A} (bs cnt : nat) (l : list A) :
  (length l <= cnt * bs)%nat ->
  concat (map (fun k => take bs (drop (k * bs) l)) (seq 0 cnt)) = l.
Proof.
  revert l. induction cnt as [|cnt IH]; intros l Hl.
  - destruct l; [done | simpl in Hl; lia].
  - simpl. rewrite <- seq_shift, map_map.
    transitivity (take bs l ++ drop bs l); [f_equal | apply take_drop].
    etrans; [|apply (IH (drop bs l)); rewrite length_drop; lia].
    f_equal. apply map_ext. intros k. rewrite drop_drop. do 2 f_equal.
Qed.

Lemma batches_positive (chunks : list ContentChunk) (batch_size : Z) (k : nat) :
  0 < batch_size ->
  py_slice chunks (Z.of_nat k * batch_size)
           (Z.of_nat k * batch_size + batch_size)
  = take (Z.to_nat batch_size) (drop (k * Z.to_nat batch_size) chunks).
Proof.
  intros Hbs. rewrite py_slice_nonneg by nia. f_equal; [f_equal; lia|].
  f_equal. nia.
Qed.

Lemma batches_partition (chunks : list ContentChunk)
    (batch_size : Z) :
  0 < batch_size ->
  exists starts,
    py_range 0 (len chunks) batch_size = Some starts /\
    concat (batches chunks batch_size starts) = chunks /\
    Forall (fun b => b <> [] /\ len b <= batch_size)
           (batches chunks batch_size starts) /\
    len starts = (len chunks + batch_size - 1) `div` batch_size.
Proof.
  intros Hbs. rewrite py_range_positive by done. eexists. split; [done|].
  destruct (ceil_div_bounds (len chunks) batch_size Hbs ltac:(unfold len; lia))
    as (Hq & Hup & Hlow).
  set (q := (len chunks + batch_size - 1) `div` batch_size) in *.
  unfold batches. rewrite map_map.
  assert (Heach : forall k : nat,
            py_slice chunks (Z.of_nat k * batch_size)
                     (Z.of_nat k * batch_size + batch_size)
            = take (Z.to_nat batch_size) (drop (k * Z.to_nat batch_size) chunks))
    by (intros; by apply batches_positive).
  split; [|split].
  - erewrite map_ext by apply Heach.
    apply concat_take_drop. unfold len in *. nia.
  - apply Forall_forall. intros b Hb.
    apply list_elem_of_In, in_map_iff in Hb as (k & <- & Hk%in_seq).
    rewrite Heach. unfold len in *.
    assert (Z.of_nat k * batch_size < Z.of_nat (length chunks)) by nia.
    assert (k * Z.to_nat batch_size < length chunks)%nat by nia.
    split.
    + intros Hnil. apply (f_equal length) in Hnil.
      rewrite length_take, length_drop in Hnil. simpl in Hnil. lia.
    + rewrite length_take. lia.
  - unfold len. rewrite length_map, length_seq. lia.
Qed.

(** X12: with a positive batch size the batch loop visits every chunk
    exactly once and in order: the batches, one after the other, are the
    chunk list; every batch is non-empty and has at most [batch_size]
    chunks; and there are ceil(len(chunks) / batch_size) of them, the
    total that the progress line prints. *)
Theorem X12_batches_partition_chunks (chunks : list ContentChunk)
    (batch_size : Z) :
  0 < batch_size ->
  exists starts,
    py_range 0 (len chunks) batch_size = Some starts /\
    concat (batches chunks batch_size starts) = chunks /\
    Forall (fun b => b <> [] /\ len b <= batch_size)
           (batches chunks batch_size starts) /\
    len starts = (len chunks + batch_size - 1) `div` batch_size.
Proof. apply batches_partition. Qed.

Lemma X12_batches_partition_chunks_witness :
  let chunks := [test_chunk 0 "a" "t"; test_chunk 1 "b" "t"; test_chunk 2 "c" "t"] in
  exists starts,
    py_range 0 (len chunks) 2 = Some starts /\
    concat (batches chunks 2 starts) = chunks /\
    Forall (fun b => b <> [] /\ len b <= 2) (batches chunks 2 starts) /\
    len starts = (len chunks + 2 - 1) `div` 2.
Proof.
  apply (X12_batches_partition_chunks
           [test_chunk 0 "a" "t"; test_chunk 1 "b" "t"; test_chunk 2 "c" "t"] 2).
  reflexivity.
Defined.

(** X13: a batch size that is not positive embeds and writes nothing,
    whatever the chunks: zero raises [ValueError] (from [range]) after
    the connection is opened, a negative size makes the loop empty and the
    run returns normally.  In both cases the table and stdout are
    untouched and the connection ends closed. *)
Theorem X13_nonpositive_batch_size {num : Type}
    (embed_server : list str -> option (list (list num)))
    (db_accepts : ContentChunk -> list num -> bool)
    (chunks : list ContentChunk) (batch_size : Z) (w : World num) :
  batch_size <= 0 ->
  embed_chunks_to_db embed_server db_accepts chunks batch_size w
  = (if batch_size =? 0 then inl ValueError else inr tt,
     {| table := table w; conn_open := false; stdout := stdout w |}).
Proof.
  intros Hbs. unfold embed_chunks_to_db, bind, try_finally, connect, close.
  unfold py_range. destruct (Z.eqb_spec batch_size 0) as [->|Hne]; [done|].
  destruct (Z.ltb_spec 0 batch_size); [lia|].
  assert (Hcount : (0 - len chunks - batch_size - 1) `div` (- batch_size) <= 0).
  { assert ((0 - len chunks - batch_size - 1) `div` (- batch_size) < 1); [|lia].
    apply Z.div_lt_upper_bound; unfold len; lia. }
  replace (Z.to_nat _) with O by lia. done.
Qed.

Lemma X13_nonpositive_batch_size_witness :
  embed_chunks_to_db empty_vector_server accept_all
    [test_chunk 0 "cells divide" "Mitosis"] (-4) empty_world
  = (inr tt, {| table := table empty_world; conn_open := false;
                stdout := stdout empty_world |}).
Proof.
  apply (X13_nonpositive_batch_size empty_vector_server accept_all
           [test_chunk 0 "cells divide" "Mitosis"] (-4) empty_world).
  discriminate.
Defined.

Section UpsertRows.

Context {num : Type}.
Variable db_accepts : ContentChunk -> list num -> bool.

Implicit Types (w : World num) (k : str * Z).
Implicit Types (pairs : list (ContentChunk * list num)).

Lemma accepted_prefix_subset pairs p :
  p ∈ accepted_prefix db_accepts pairs -> p ∈ pairs.
Proof.
  induction pairs as [|q pairs IH]; simpl; [done|].
  destruct (db_accepts q.1 q.2); [|by intros ?%elem_of_nil].
  intros [->|Hp%IH]%elem_of_cons; [by left | by right].
Qed.

(** Statements for other keys leave the row under [k] alone. *)
Lemma cell_fold_skip k pairs (cell : option (Row num)) :
  Forall (fun p => key p.1 <> k) pairs ->
  foldl (cell_step k) cell pairs = cell.
Proof.
  intros Hskip. revert cell.
  induction Hskip as [|p pairs Hp _ IH]; intros cell; [done|]. simpl.
  rewrite IH. unfold cell_step. by rewrite decide_False.
Qed.

Lemma cell_fold_fresh_key k pairs (r : Row num) :
  foldl (cell_step k) None pairs = Some r -> k ∈ map (fun p => key p.1) pairs.
Proof.
  intros Hr. destruct (decide (k ∈ map (fun p => key p.1) pairs)) as [|Hnot]; [done|].
  rewrite cell_fold_skip in Hr; [done|].
  apply Forall_forall. intros p Hp Hk. apply Hnot.
  apply list_elem_of_In, in_map_iff. exists p. by rewrite <- list_elem_of_In.
Qed.

End UpsertRows.

(** X14: a statement that the database refuses ends the upsert loop with
    its error and without rollback: the pairs before it stay written
    exactly as if they had been upserted alone, and the pairs after it are
    not attempted. *)
Theorem X14_refused_statement_no_rollback {num : Type}
    (db_accepts : ContentChunk -> list num -> bool) (w : World num)
    (pre : list (ContentChunk * list num)) (p : ContentChunk * list num)
    (post : list (ContentChunk * list num)) :
  Forall (fun q => db_accepts q.1 q.2 = true) pre ->
  db_accepts p.1 p.2 = false ->
  upsert db_accepts (pre ++ p :: post) w
  = (inl (PostgresError (content_unit_id p.1) (chunk_index p.1)),
     (upsert db_accepts pre w).2) /\
  (upsert db_accepts pre w).1 = inr tt.
Proof.
  intros Hpre Hp. rewrite !upsert_spec.
  destruct (accepted_prefix_refused db_accepts pre p post Hpre Hp) as [-> ->].
  by destruct (accepted_prefix_all db_accepts pre Hpre) as [-> ->].
Qed.

Lemma X14_refused_statement_no_rollback_witness :
  let c0 := test_chunk 0 "cells divide" "Mitosis" in
  let c1 := test_chunk 1 "cells divide twice" "Meiosis" in
  let c2 := test_chunk 2 "cells rest" "Interphase" in
  upsert (refuse_index 1) ([(c0, [1])] ++ (c1, [2]) :: [(c2, [3])]) empty_world
  = (inl (PostgresError (content_unit_id c1) 1),
     (upsert (refuse_index 1) [(c0, [1])] empty_world).2) /\
  (upsert (refuse_index 1) [(c0, [1])] empty_world).1 = inr tt.
Proof.
  apply (X14_refused_statement_no_rollback (refuse_index 1) empty_world
           [(test_chunk 0 "cells divide" "Mitosis", [1])]
           (test_chunk 1 "cells divide twice" "Meiosis", [2])
           [(test_chunk 2 "cells rest" "Interphase", [3])]).
  - repeat constructor.
  - reflexivity.
Defined.

(** X15: the upsert loop never removes a row and never changes the
    chunk_text or the metadata of a row that was there before it; a key
    that is in the table afterwards was there before or is the key of
    one of the pairs; the connection and stdout are left alone. *)
Theorem X15_upsert_keeps_existing_rows {num : Type}
    (db_accepts : ContentChunk -> list num -> bool) (w : World num)
    (pairs : list (ContentChunk * list num)) :
  let w' := (upsert db_accepts pairs w).2 in
  (forall k r, table w !! k = Some r ->
     exists r', table w' !! k = Some r' /\
                chunk_text r' = chunk_text r /\
                row_metadata r' = row_metadata r) /\
  (forall k, is_Some (table w' !! k) ->
     is_Some (table w !! k) \/ k ∈ map (fun p => key p.1) pairs) /\
  conn_open w' = conn_open w /\ stdout w' = stdout w.
Proof.
  intros w'. unfold w'. rewrite upsert_spec. simpl. repeat split.
  - intros k r Hr. rewrite lookup_upsert_all, Hr, cell_fold_some. by eexists.
  - intros k [r' Hr']. rewrite lookup_upsert_all in Hr'.
    destruct (table w !! k) as [r|] eqn:Hr; [by left | right].
    apply cell_fold_fresh_key in Hr'.
    apply list_elem_of_In, in_map_iff in Hr' as (p & <- & Hp).
    apply list_elem_of_In, in_map_iff. exists p. split; [done|].
    by apply list_elem_of_In, (accepted_prefix_subset db_accepts), list_elem_of_In.
Qed.

(** X16: whatever happens in a run (normal end, failed request, refused
    statement, zero batch size), the connection is closed when
    [embed_chunks_to_db] ends. *)
Theorem X16_connection_always_closed {num : Type}
    (embed_server : list str -> option (list (list num)))
    (db_accepts : ContentChunk -> list num -> bool)
    (chunks : list ContentChunk) (batch_size : Z) (w : World num) :
  conn_open (embed_chunks_to_db embed_server db_accepts chunks batch_size w).2
  = false.
Proof. apply embed_chunks_to_db_closes. Qed.

(** X17: running [embed_chunks_to_db] a second time on the same chunks,
    from the world the first run left and against a server that answers
    the same, leaves the table exactly as the first run left it, also
    when the run fails part-way. *)
Theorem X17_rerun_leaves_table {num : Type}
    (embed_server : list str -> option (list (list num)))
    (db_accepts : ContentChunk -> list num -> bool)
    (chunks : list ContentChunk) (batch_size : Z) (w : World num) :
  let once := (embed_chunks_to_db embed_server db_accepts chunks batch_size w).2 in
  table (embed_chunks_to_db embed_server db_accepts chunks batch_size once).2
  = table once.
Proof. apply embed_chunks_to_db_rerun. Qed.

Section SuccessfulRun.

Context {num : Type}.
Variable f : str -> list num.
Variable db_accepts : ContentChunk -> list num -> bool.
Variable chunks : list ContentChunk.
Variable batch_size : Z.

Local Abbreviation server := (pointwise_server f).
Local Abbreviation paired := (map (fun c => (c, f (text c)))).
Local Abbreviation total := ((len chunks + batch_size - 1) `div` batch_size).

Hypothesis accepted : forall c, c ∈ chunks -> db_accepts c (f (text c)) = true.

Lemma zip_paired (batch : list ContentChunk) :
  zip batch (map f (map text batch)) = paired batch.
Proof. induction batch as [|c batch IH]; [done|]. simpl. by rewrite <- IH. Qed.

Lemma py_slice_subset {A} (l : list A) (i j : Z) (x : A) :
  x ∈ py_slice l i j -> x ∈ l.
Proof.
  intros Hx. destruct (py_slice_run l i j) as (before & after & Hl).
  rewrite Hl. apply elem_of_app. right. apply elem_of_app. by left.
Qed.

(** When every request and every statement goes through, the batch loop
    returns normally, has run the statements of all its batches in order,
    and has printed one line for each batch. *)
Lemma for_each_embed_batch_ok (starts : list Z) (w : World num) :
  for_each (embed_batch server db_accepts chunks batch_size) starts w
  = (inr tt,
     {| table := upsert_all (paired (concat (batches chunks batch_size starts)))
                            (table w);
        conn_open := conn_open w;
        stdout := stdout w ++
                  map (fun i => (i `div` batch_size + 1, total)) starts |}).
Proof.
  revert w. induction starts as [|i starts IH]; intros w.
  - simpl. rewrite app_nil_r. by destruct w.
  - simpl. unfold bind at 1. unfold embed_batch at 1.
    unfold bind, embed_texts, pointwise_server, ret.
    rewrite upsert_spec, zip_paired.
    set (batch := py_slice chunks i (i + batch_size)).
    assert (Hok : Forall (fun p => db_accepts p.1 p.2 = true) (paired batch)).
    { apply Forall_forall. intros p Hp.
      apply list_elem_of_In, in_map_iff in Hp as (c & <- & Hc). simpl.
      apply accepted. eapply py_slice_subset. by apply list_elem_of_In. }
    destruct (accepted_prefix_all db_accepts _ Hok) as [-> ->].
    unfold print. simpl. rewrite IH. simpl.
    rewrite map_app, upsert_all_app, <- app_assoc. done.
Qed.

End SuccessfulRun.

Lemma cell_fold_unique {num : Type} (f : str -> list num)
    (chunks : list ContentChunk) (c : ContentChunk) (cell : option (Row num)) :
  NoDup (map key chunks) -> c ∈ chunks ->
  foldl (cell_step (key c)) cell (map (fun c => (c, f (text c))) chunks)
  = cell_step (key c) cell (c, f (text c)).
Proof.
  intros Hnd (l1 & l2 & ->)%list_elem_of_split.
  rewrite map_app in Hnd. simpl in Hnd.
  apply NoDup_app in Hnd as (_ & Hl1 & Hl2).
  apply NoDup_cons in Hl2 as [Hl2 _].
  assert (Hskip : forall l, key c ∉ map key l ->
            Forall (fun p : ContentChunk * list num => key p.1 <> key c)
                   (map (fun c => (c, f (text c))) l)).
  { intros l Hl. apply Forall_forall. intros p Hp Hk. apply Hl.
    apply list_elem_of_In, in_map_iff in Hp as (c' & <- & Hc').
    apply list_elem_of_In, in_map_iff. by exists c'. }
  rewrite map_app, foldl_app. simpl.
  rewrite (cell_fold_skip (key c) _ cell); [|apply Hskip].
  - by apply cell_fold_skip, Hskip.
  - intros Hin. apply (Hl1 _ Hin). by left.
Qed.

(** X18: when the batch size is positive, the server answers every text
    with its vector, the database accepts the statements and the chunks
    have pairwise distinct keys, the run returns normally and every chunk
    can be looked up under its key with the vector of its text; a chunk
    whose key was free gets a row with its own text and metadata, and
    rows under other keys are untouched. *)
Theorem X18_run_stores_every_chunk {num : Type} (f : str -> list num)
    (db_accepts : ContentChunk -> list num -> bool)
    (chunks : list ContentChunk) (batch_size : Z) (w : World num) :
  0 < batch_size ->
  (forall c, c ∈ chunks -> db_accepts c (f (text c)) = true) ->
  NoDup (map key chunks) ->
  let run := embed_chunks_to_db (pointwise_server f) db_accepts
                                chunks batch_size w in
  run.1 = inr tt /\
  (forall c, c ∈ chunks ->
     embedding <$> (table run.2 !! key c) = Some (f (text c)) /\
     (table w !! key c = None ->
      table run.2 !! key c
      = Some {| chunk_text := text c; embedding := f (text c);
                row_metadata := metadata c |})) /\
  (forall k, k ∉ map key chunks -> table run.2 !! k = table w !! k).
Proof.
  intros Hbs Hok Hnd run. unfold run, embed_chunks_to_db, bind, try_finally.
  destruct (batches_partition chunks batch_size Hbs)
    as (starts & -> & Hall & _).
  simpl. rewrite for_each_embed_batch_ok by done. simpl. rewrite Hall.
  split; [done|]. split.
  - intros c Hc. rewrite lookup_upsert_all, cell_fold_unique by done.
    unfold cell_step. simpl. rewrite decide_True by done.
    split; [by destruct (table w !! key c) | by intros ->].
  - intros k Hk. rewrite lookup_upsert_all. apply cell_fold_skip.
    apply Forall_forall. intros p Hp Hkey. apply Hk.
    apply list_elem_of_In, in_map_iff in Hp as (c & <- & Hc).
    apply list_elem_of_In, in_map_iff. by exists c.
Qed.

Lemma X18_run_stores_every_chunk_witness :
  let c0 := test_chunk 0 "cells divide" "Mitosis" in
  let c1 := test_chunk 1 "cells divide twice" "Meiosis" in
  let c2 := test_chunk 2 "cells rest" "Interphase" in
  let chunks := [c0; c1; c2] in
  let f := fun t : str => [len t] in
  let run := embed_chunks_to_db (pointwise_server f) accept_all chunks 2
                                empty_world in
  run.1 = inr tt /\
  (forall c, c ∈ chunks ->
     embedding <$> (table run.2 !! key c) = Some (f (text c)) /\
     (table empty_world !! key c = None ->
      table run.2 !! key c
      = Some {| chunk_text := text c; embedding := f (text c);
                row_metadata := metadata c |})) /\
  (forall k, k ∉ map key chunks -> table run.2 !! k = table empty_world !! k).
Proof.
  apply (X18_run_stores_every_chunk (fun t : str => [len t]) accept_all
           [test_chunk 0 "cells divide" "Mitosis";
            test_chunk 1 "cells divide twice" "Meiosis";
            test_chunk 2 "cells rest" "Interphase"] 2 empty_world).
  - reflexivity.
  - reflexivity.
  - vm_compute. repeat constructor; rewrite ?elem_of_cons, ?elem_of_nil;
      intros H; repeat destruct H as [H|H]; try discriminate H; done.
Defined.

(** X20: under the same conditions (no distinct keys needed) a run over
    k = ceil(len(chunks) / batch_size) batches appends exactly the lines
    1/k, 2/k, ..., k/k to stdout, in this order. *)
Theorem X20_progress_lines {num : Type} (f : str -> list num)
    (db_accepts : ContentChunk -> list num -> bool)
    (chunks : list ContentChunk) (batch_size : Z) (w : World num) :
  0 < batch_size ->
  (forall c, c ∈ chunks -> db_accepts c (f (text c)) = true) ->
  stdout (embed_chunks_to_db (pointwise_server f) db_accepts
                             chunks batch_size w).2
  = stdout w ++
    progress_lines (Z.to_nat ((len chunks + batch_size - 1) `div` batch_size)).
Proof.
  intros Hbs Hok. unfold embed_chunks_to_db, bind, try_finally.
  rewrite py_range_positive by done.
  simpl. rewrite for_each_embed_batch_ok by done. simpl. f_equal.
  destruct (ceil_div_bounds (len chunks) batch_size Hbs ltac:(unfold len; lia))
    as (Hq & _).
  unfold progress_lines. rewrite map_map. apply map_ext. intros k.
  rewrite Z.div_mul by lia. f_equal. lia.
Qed.

Lemma X20_progress_lines_witness :
  stdout (embed_chunks_to_db (pointwise_server (fun t : str => [len t]))
            accept_all
            [test_chunk 0 "a" "t"; test_chunk 1 "b" "t"; test_chunk 2 "c" "t"]
            2 empty_world).2
  = [] ++ progress_lines 2.
Proof.
  apply (X20_progress_lines (fun t : str => [len t]) accept_all
           [test_chunk 0 "a" "t"; test_chunk 1 "b" "t"; test_chunk 2 "c" "t"]
           2 empty_world).
  - reflexivity.
  - reflexivity.
Defined.

Lemma zip_take_l {A B} (l : list A) (k : list B) :
  zip l k = zip (take (length k) l) k.
Proof.
  revert k. induction l as [|x l IH]; intros [|y k]; simpl; try done.
  by rewrite <- IH.
Qed.

(** X19: when the server answers a batch with fewer vectors than texts
    and the database accepts the statements, no error is raised and the
    batch is reported as embedded, but only the first [len(embeddings)]
    chunks of the batch are written: rows under any other key are left as
    they were. *)
Theorem X19_short_answer_truncates_batch {num : Type}
    (embed_server : list str -> option (list (list num)))
    (db_accepts : ContentChunk -> list num -> bool)
    (chunks : list ContentChunk) (batch_size i : Z) (w : World num)
    (embeddings : list (list num)) :
  let batch := py_slice chunks i (i + batch_size) in
  let written := take (length embeddings) batch in
  embed_server (map text batch) = Some embeddings ->
  Forall (fun p => db_accepts p.1 p.2 = true) (zip batch embeddings) ->
  exists w',
    embed_batch embed_server db_accepts chunks batch_size i w = (inr tt, w') /\
    table w' = upsert_all (zip written embeddings) (table w) /\
    (forall k, k ∉ map key written -> table w' !! k = table w !! k) /\
    stdout w' = stdout w ++ [(i `div` batch_size + 1,
                              (len chunks + batch_size - 1) `div` batch_size)].
Proof.
  intros batch written Hserver Hok.
  unfold embed_batch, bind, embed_texts. fold batch. rewrite Hserver.
  unfold ret. rewrite upsert_spec.
  destruct (accepted_prefix_all db_accepts _ Hok) as [-> ->].
  unfold print. simpl. eexists. split; [done|]. simpl.
  rewrite (zip_take_l batch embeddings). fold written.
  repeat split. intros k Hk. rewrite lookup_upsert_all. apply cell_fold_skip.
  apply Forall_forall. intros [c e] Hp Hkey. apply Hk. simpl in Hkey.
  apply elem_of_zip_l in Hp.
  apply list_elem_of_In, in_map_iff. exists c. by rewrite <- list_elem_of_In.
Qed.

Lemma X19_short_answer_truncates_batch_witness :
  let c0 := test_chunk 0 "cells divide" "Mitosis" in
  let c1 := test_chunk 1 "cells divide twice" "Meiosis" in
  let server := fun _ : list str => Some [[7]] in
  exists w',
    embed_batch server accept_all [c0; c1] 2 0 empty_world = (inr tt, w') /\
    table w' = upsert_all (zip [c0] [[7]]) (table empty_world) /\
    (forall k, k ∉ map key [c0] -> table w' !! k = table empty_world !! k) /\
    stdout w' = stdout empty_world ++ [(0 `div` 2 + 1, (2 + 2 - 1) `div` 2)].
Proof.
  apply (X19_short_answer_truncates_batch (fun _ : list str => Some [[7]])
           accept_all
           [test_chunk 0 "cells divide" "Mitosis";
            test_chunk 1 "cells divide twice" "Meiosis"] 2 0 empty_world [[7]]).
  - reflexivity.
  - repeat constructor.
Defined.

(** ** The main block *)

Lemma chunk_units_parts (chunker : SemanticChunker) (fuel : nat)
    (content_units : list ContentUnit) (acc all_chunks : list ContentChunk) :
  chunk_units chunker fuel content_units acc = Some all_chunks ->
  exists parts,
    Forall2 (fun u part => chunk_content chunker u fuel = Some part)
            content_units parts /\
    all_chunks = acc ++ concat parts.
Proof.
  revert acc. induction content_units as [|u units IH]; intros acc; simpl.
  - intros [= <-]. exists []. split; [constructor | by rewrite app_nil_r].
  - destruct (chunk_content chunker u fuel) as [part|] eqn:Hu; [|done].
    intros (parts & Hparts & ->)%IH. exists (part :: parts).
    split; [by constructor | by rewrite <- app_assoc].
Qed.

Lemma chunk_units_of_parts (chunker : SemanticChunker) (fuel : nat)
    (content_units : list ContentUnit) (acc : list ContentChunk) parts :
  Forall2 (fun u part => chunk_content chunker u fuel = Some part)
          content_units parts ->
  chunk_units chunker fuel content_units acc = Some (acc ++ concat parts).
Proof.
  intros Hparts. revert acc.
  induction Hparts as [|u part units parts Hu _ IH]; intros acc; simpl.
  - by rewrite app_nil_r.
  - by rewrite Hu, IH, <- app_assoc.
Qed.

Lemma chunk_content_fuel_mono (self : SemanticChunker) (u : ContentUnit)
    (fuel fuel' : nat) chunks :
  chunk_content self u fuel = Some chunks -> (fuel <= fuel')%nat ->
  chunk_content self u fuel' = Some chunks.
Proof. apply chunk_sections_mono. Qed.

Lemma chunk_units_terminates (chunker : SemanticChunker)
    (content_units : list ContentUnit) (fuel : nat) :
  1 <= max_chunk chunker - overlap chunker ->
  (units_fuel content_units <= fuel)%nat ->
  exists parts,
    Forall2 (fun u part => chunk_content chunker u fuel = Some part)
            content_units parts.
Proof.
  intros Hstep. induction content_units as [|u units IH]; simpl; intros Hfuel.
  - exists []. constructor.
  - destruct IH as [parts Hparts]; [lia|].
    destruct (chunk_content_terminates chunker u Hstep) as [part Hpart].
    exists (part :: parts). constructor; [|done].
    eapply chunk_content_fuel_mono; [exact Hpart | lia].
Qed.

Lemma parts_keys (chunker : SemanticChunker) (fuel : nat)
    (content_units : list ContentUnit) parts (c : ContentChunk) :
  Forall2 (fun u part => chunk_content chunker u fuel = Some part)
          content_units parts ->
  c ∈ concat parts ->
  exists u part, u ∈ content_units /\
                 chunk_content chunker u fuel = Some part /\ c ∈ part /\
                 content_unit_id c = unit_id u.
Proof.
  induction 1 as [|u part units parts Hu _ IH]; simpl.
  - by intros ?%elem_of_nil.
  - intros [Hc|Hc]%elem_of_app.
    + exists u, part. repeat split; [by left | done..|].
      destruct (chunk_content_keys _ _ _ _ Hu) as [Hall _].
      rewrite Forall_forall in Hall. by destruct (Hall c Hc).
    + destruct (IH Hc) as (u' & part' & Hu' & Hrest).
      exists u', part'. split; [by right | done].
Qed.

Lemma parts_keys_distinct (chunker : SemanticChunker) (fuel : nat)
    (content_units : list ContentUnit) parts :
  NoDup (map unit_id content_units) ->
  Forall2 (fun u part => chunk_content chunker u fuel = Some part)
          content_units parts ->
  NoDup (map key (concat parts)).
Proof.
  intros Hnd Hparts.
  induction Hparts as [|u part units parts Hu Hparts IH]; simpl; [constructor|].
  simpl in Hnd. apply NoDup_cons in Hnd as [Hu_new Hnd].
  destruct (chunk_content_keys _ _ _ _ Hu) as [Hids Hkeys].
  rewrite map_app. apply NoDup_app. split; [done|]. split; [|by apply IH].
  intros k Hk1 Hk2.
  apply list_elem_of_In, in_map_iff in Hk1 as (c1 & <- & Hc1).
  apply list_elem_of_In, in_map_iff in Hk2 as (c2 & Heq & Hc2).
  rewrite Forall_forall in Hids.
  destruct (Hids c1) as [Hid1 _]; [by apply list_elem_of_In|].
  destruct (parts_keys _ _ _ _ c2 Hparts) as (u2 & _ & Hu2 & _ & _ & Hid2);
    [by apply list_elem_of_In|].
  apply Hu_new. apply list_elem_of_In, in_map_iff. exists u2.
  split; [|by apply list_elem_of_In].
  injection Heq as Heq _. congruence.
Qed.

(** X21: the chunks that the main block collects from content units with
    pairwise distinct ids have pairwise distinct store keys, and each
    chunk carries the id of the unit it was cut from. *)
Theorem X21_all_chunks_keys_distinct (chunker : SemanticChunker) (fuel : nat)
    (content_units : list ContentUnit) (all_chunks : list ContentChunk) :
  NoDup (map unit_id content_units) ->
  chunk_units chunker fuel content_units [] = Some all_chunks ->
  NoDup (map key all_chunks) /\
  forall c, c ∈ all_chunks ->
    exists u part, u ∈ content_units /\
                   chunk_content chunker u fuel = Some part /\ c ∈ part /\
                   content_unit_id c = unit_id u.
Proof.
  intros Hnd (parts & Hparts & ->)%chunk_units_parts. simpl. split.
  - by apply (parts_keys_distinct chunker fuel content_units).
  - intros c Hc. by apply (parts_keys chunker fuel content_units parts).
Qed.

Lemma X21_all_chunks_keys_distinct_witness :
  let u1 := test_unit (of_string "a b c d e f") in
  let u2 := {| unit_id := of_string "unit-2"; subject := of_string "physics";
               grade_band := of_string "G9_10"; topic_path := None;
               title := of_string "Waves"; full_text := of_string "g h" |} in
  let all_chunks :=
    [mk_chunk u1 0 (of_string "a b c d"); mk_chunk u1 1 (of_string "c d e f");
     mk_chunk u1 2 (of_string "e f"); mk_chunk u2 0 (of_string "g h")] in
  NoDup (map key all_chunks) /\
  forall c, c ∈ all_chunks ->
    exists u part, u ∈ [u1; u2] /\
                   chunk_content (SemanticChunker_init 4 2 2) u 6 = Some part /\
                   c ∈ part /\ content_unit_id c = unit_id u.
Proof.
  apply (X21_all_chunks_keys_distinct (SemanticChunker_init 4 2 2) 6
           [test_unit (of_string "a b c d e f");
            {| unit_id := of_string "unit-2"; subject := of_string "physics";
               grade_band := of_string "G9_10"; topic_path := None;
               title := of_string "Waves"; full_text := of_string "g h" |}]).
  - vm_compute. repeat constructor; rewrite ?elem_of_cons, ?elem_of_nil;
      intros H; repeat destruct H as [H|H]; try discriminate H; done.
  - vm_compute. reflexivity.
Defined.

(** X22: the main block on content units with pairwise distinct ids,
    against a server that answers every text with its vector and a
    database that accepts the statements: with enough loop runs allowed
    it returns, it prints the number of chunks and of units, the run ends
    normally with the connection closed, and every chunk of every unit is
    in the table under its key with the vector of its text. *)
Theorem X22_main_stores_all_units {num : Type} (f : str -> list num)
    (db_accepts : ContentChunk -> list num -> bool)
    (content_units : list ContentUnit) (fuel : nat) (w : World num) :
  NoDup (map unit_id content_units) ->
  (forall c, db_accepts c (f (text c)) = true) ->
  (units_fuel content_units <= fuel)%nat ->
  exists all_chunks run,
    main (pointwise_server f) db_accepts fuel content_units w
    = Some ((len all_chunks, len content_units), run) /\
    chunk_units default_chunker fuel content_units [] = Some all_chunks /\
    run.1 = inr tt /\ conn_open run.2 = false /\
    forall u part c,
      u ∈ content_units ->
      chunk_content default_chunker u fuel = Some part -> c ∈ part ->
      embedding <$> (table run.2 !! key c) = Some (f (text c)).
Proof.
  intros Hnd Hok Hfuel.
  destruct (chunk_units_terminates default_chunker content_units fuel)
    as [parts Hparts]; [done..|].
  pose proof (chunk_units_of_parts _ _ _ [] _ Hparts) as Hall. simpl in Hall.
  exists (concat parts), (embed_chunks_to_db (pointwise_server f) db_accepts
                            (concat parts) 32 w).
  unfold main. rewrite Hall. split; [done|]. split; [done|].
  pose proof (parts_keys_distinct _ _ _ _ Hnd Hparts) as Hkeys.
  destruct (batches_partition (concat parts) 32 ltac:(done))
    as (starts & Hrange & Hcat & _).
  assert (Hrun : embed_chunks_to_db (pointwise_server f) db_accepts
                   (concat parts) 32 w
                 = (inr tt,
                    {| table := upsert_all
                         (map (fun c => (c, f (text c))) (concat parts)) (table w);
                       conn_open := false;
                       stdout := stdout w ++
                         map (fun i => (i `div` 32 + 1,
                                        (len (concat parts) + 32 - 1) `div` 32))
                             starts |})).
  { unfold embed_chunks_to_db, bind, try_finally. rewrite Hrange. simpl.
    rewrite for_each_embed_batch_ok by (intros; apply Hok). simpl.
    by rewrite Hcat. }
  rewrite Hrun. simpl. split; [done|]. split; [done|].
  intros u part c Hu Hpart Hc.
  assert (Hin : c ∈ concat parts).
  { clear -Hparts Hu Hpart Hc.
    induction Hparts as [|u' part' units parts Hu' _ IH]; simpl.
    - by apply elem_of_nil in Hu.
    - apply elem_of_app. apply elem_of_cons in Hu as [->|Hu].
      + left. congruence.
      + right. by apply IH. }
  rewrite lookup_upsert_all, cell_fold_unique by done.
  unfold cell_step. simpl. rewrite decide_True by done.
  by destruct (table w !! key c).
Qed.

Lemma X22_main_stores_all_units_witness :
  let units := [test_unit (test_text 9)] in
  let f := fun t : str => [len t] in
  exists all_chunks run,
    main (pointwise_server f) accept_all 9 units empty_world
    = Some ((len all_chunks, len units), run) /\
    chunk_units default_chunker 9 units [] = Some all_chunks /\
    run.1 = inr tt /\ conn_open run.2 = false /\
    forall u part c,
      u ∈ units ->
      chunk_content default_chunker u 9 = Some part -> c ∈ part ->
      embedding <$> (table run.2 !! key c) = Some (f (text c)).
Proof.
  apply (X22_main_stores_all_units (fun t : str => [len t]) accept_all
           [test_unit (test_text 9)] 9 empty_world).
  - repeat constructor. apply not_elem_of_nil.
  - reflexivity.
  - vm_compute. repeat constructor.
Defined.

(** X24: when several pairs of one upsert have the same key, the row
    ends with the vector of the last of them, and, if the key was free
    before, with the text and metadata of the first of them: the last
    write wins for the vector, the first for everything else. *)
Theorem X24_last_vector_first_text {num : Type}
    (db_accepts : ContentChunk -> list num -> bool) (w : World num)
    (pre mid post : list (ContentChunk * list num))
    (first last : ContentChunk) (e1 e2 : list num) :
  let pairs := pre ++ (first, e1) :: mid ++ (last, e2) :: post in
  key first = key last ->
  Forall (fun p => db_accepts p.1 p.2 = true) pairs ->
  Forall (fun p => key p.1 <> key last) pre ->
  Forall (fun p => key p.1 <> key last) post ->
  table w !! key last = None ->
  (upsert db_accepts pairs w).1 = inr tt /\
  table (upsert db_accepts pairs w).2 !! key last
  = Some {| chunk_text := text first; embedding := e2;
            row_metadata := metadata first |}.
Proof.
  intros pairs Hkey Hok Hpre Hpost Hfree. rewrite upsert_spec.
  destruct (accepted_prefix_all db_accepts _ Hok) as [-> ->].
  split; [done|]. simpl. unfold pairs.
  assert (Hstep : forall (cell : option (Row num)) (c : ContentChunk) e,
            key c = key last ->
            cell_step (key last) cell (c, e)
            = Some match cell with
                   | Some r => set_embedding e r
                   | None => {| chunk_text := text c; embedding := e;
                                row_metadata := metadata c |}
                   end).
  { intros cell c e Hc. unfold cell_step. simpl. rewrite decide_True by done.
    by destruct cell. }
  rewrite lookup_upsert_all, foldl_app, Hfree.
  rewrite (cell_fold_skip (key last) pre None Hpre).
  cbn [foldl]. rewrite Hstep by done.
  rewrite foldl_app, cell_fold_some. cbn [foldl]. rewrite Hstep by done.
  by rewrite (cell_fold_skip (key last) post _ Hpost).
Qed.

Lemma X24_last_vector_first_text_witness :
  let a := test_chunk 0 "cells divide" "Mitosis" in
  let b := test_chunk 1 "cells rest" "Interphase" in
  let a' := test_chunk 0 "cells divide twice" "Meiosis" in
  let pairs := [] ++ (a, [1]) :: [(b, [2])] ++ (a', [3]) :: [] in
  (upsert accept_all pairs empty_world).1 = inr tt /\
  table (upsert accept_all pairs empty_world).2 !! key a'
  = Some {| chunk_text := text a; embedding := [3];
            row_metadata := metadata a |}.
Proof.
  apply (X24_last_vector_first_text accept_all empty_world []
           [(test_chunk 1 "cells rest" "Interphase", [2])] []
           (test_chunk 0 "cells divide" "Mitosis")
           (test_chunk 0 "cells divide twice" "Meiosis") [1] [3]).
  - reflexivity.
  - repeat constructor.
  - constructor.
  - constructor.
  - reflexivity.
Defined.
